(** * httpxdb: the rate-limited, cache-aware HTTP client layer

    A shallow embedding of [client/client.py]: the token-bucket
    [RateLimitContext], the [AsyncClient] transport facade and the
    cache-backed [Requestor], with the properties the specification states
    about them.

    Conventions.
    - Python [int] is [Z]; Python [float] (clock readings, the refill rate,
      the token balance) is idealised as an exact rational [Q]; rounding is
      outside the model.
    - Every method is a computation in a state/writer/error monad: it reads
      and updates a state, appends to a trace of the calls it makes to its
      collaborators, and ends by returning, by raising, or by never being
      resumed.
    - Runs are sequential: one coroutine at a time.  [async with self._lock]
      therefore always finds the lock free and leaves it free, and is the
      identity on the data; the semaphore is modelled because a semaphore
      built with zero permits suspends even a lone caller. *)

From Stdlib Require Import ZArith QArith Qminmax Lqa Lia Ascii String List Bool.
From stdpp Require Import base option list gmap strings.
Import ListNotations.

Local Open Scope string_scope.

(** ** Python exceptions *)

Module Py.

(** The part of the exception hierarchy the module meets: the builtins, and
    httpx's [HTTPStatusError] and [RequestError] (with one concrete
    transport error below it). *)
Inductive exc_class : Type :=
  | BaseException
  | KeyboardInterrupt
  | Exception
  | RuntimeError
  | RecursionError
  | ArithmeticError
  | ZeroDivisionError
  | ValueError
  | AttributeError
  | HTTPError
  | HTTPStatusError
  | RequestError
  | ConnectError.

Definition base (c : exc_class) : option exc_class :=
  match c with
  | BaseException => None
  | KeyboardInterrupt => Some BaseException
  | Exception => Some BaseException
  | RuntimeError => Some Exception
  | RecursionError => Some RuntimeError
  | ArithmeticError => Some Exception
  | ZeroDivisionError => Some ArithmeticError
  | ValueError => Some Exception
  | AttributeError => Some Exception
  | HTTPError => Some Exception
  | HTTPStatusError => Some HTTPError
  | RequestError => Some HTTPError
  | ConnectError => Some RequestError
  end.

Definition exc_class_eqb (c d : exc_class) : bool :=
  match c, d with
  | BaseException, BaseException | KeyboardInterrupt, KeyboardInterrupt
  | Exception, Exception | RuntimeError, RuntimeError
  | RecursionError, RecursionError | ArithmeticError, ArithmeticError
  | ZeroDivisionError, ZeroDivisionError | ValueError, ValueError
  | AttributeError, AttributeError | HTTPError, HTTPError
  | HTTPStatusError, HTTPStatusError | RequestError, RequestError
  | ConnectError, ConnectError => true
  | _, _ => false
  end.

(** [issubclass c d]: walk up from [c]; the hierarchy is four levels deep. *)
Fixpoint issubclass_upto (n : nat) (c d : exc_class) : bool :=
  exc_class_eqb c d ||
  match n with
  | O => false
  | S n' => match base c with
            | Some b => issubclass_upto n' b d
            | None => false
            end
  end.

Definition issubclass : exc_class -> exc_class -> bool := issubclass_upto 4.

Record exn : Type := Exn { exn_class : exc_class; exn_msg : string }.

Definition isinstance (e : exn) (c : exc_class) : bool :=
  issubclass (exn_class e) c.

(** How a call ends. [Blocked] is a coroutine suspended on something that
    no sequential run ever releases. *)
Inductive outcome (A : Type) : Type :=
  | Return (a : A)
  | Raise (e : exn)
  | Blocked.
Arguments Return {A} a.
Arguments Raise {A} e.
Arguments Blocked {A}.

End Py.
Import Py.

(** ** The effect monad *)

Section Monad.
Context {S E : Type}.

(** A run: the outcome, the final state, the calls made (oldest first). *)
Record run (A : Type) : Type :=
  Run { out : outcome A; final : S; trace : list E }.
Arguments Run {A} out final trace.
Arguments out {A} r.
Arguments final {A} r.
Arguments trace {A} r.

Definition M (A : Type) : Type := S -> run A.

Definition ret {A} (a : A) : M A := fun s => Run (Return a) s [].

Definition raise {A} (e : exn) : M A := fun s => Run (Raise e) s [].

Definition block {A} : M A := fun s => Run Blocked s [].

Definition bind {A B} (m : M A) (k : A -> M B) : M B :=
  fun s =>
    match m s with
    | Run (Return a) s1 tr1 =>
        match k a s1 with
        | Run o s2 tr2 => Run o s2 (tr1 ++ tr2)
        end
    | Run (Raise e) s1 tr1 => Run (Raise e) s1 tr1
    | Run Blocked s1 tr1 => Run Blocked s1 tr1
    end.

Definition get : M S := fun s => Run (Return s) s [].
Definition put (s : S) : M unit := fun _ => Run (Return tt) s [].
Definition modify (f : S -> S) : M unit := fun s => Run (Return tt) (f s) [].
Definition emit (e : E) : M unit := fun s => Run (Return tt) s [e].

(** [try: body  finally: cleanup], cleanup being a state update. *)
Definition finally {A} (body : M A) (cleanup : S -> S) : M A :=
  fun s =>
    match body s with
    | Run Blocked s1 tr1 => Run Blocked s1 tr1
    | Run o s1 tr1 => Run o (cleanup s1) tr1
    end.
End Monad.

Arguments run : clear implicits.
Arguments M : clear implicits.
Arguments Run {S E A} out final trace.
Arguments out {S E A} r.
Arguments final {S E A} r.
Arguments trace {S E A} r.

Declare Scope py_scope.
Delimit Scope py_scope with py.
Notation "x <- m ;; k" := (bind m (fun x => k))
  (at level 100, m at next level, right associativity) : py_scope.
Notation "m ;;; k" := (bind m (fun _ => k))
  (at level 100, right associativity) : py_scope.
Open Scope py_scope.

(** ** The clock and the calls to collaborators *)

(** The monotonic clock.  [now] is the current reading; [lags] is what the
    environment will add before each of the next readings (scheduling
    delay, time spent elsewhere).  A monotonic clock has no negative lag. *)
Record Clock : Type := { now : Q; lags : list Q }.

Definition tick (c : Clock) : Clock :=
  match lags c with
  | [] => c
  | d :: ds => {| now := now c + d; lags := ds |}
  end.

Definition advance (d : Q) (c : Clock) : Clock :=
  {| now := now c + Qmax 0 d; lags := lags c |}.

Definition monotone (c : Clock) : Prop := Forall (fun d => 0 <= d)%Q (lags c).

Inductive level : Type := DEBUG | WARNING | ERROR.

Inductive log_arg : Type :=
  | ArgQ (q : Q)
  | ArgZ (z : Z)
  | ArgStr (s : string)
  | ArgExn (e : exn).

Definition Headers : Type := list (string * string).

Inductive verb : Type := GET | POST | PUT | DELETE.

Inductive event : Type :=
  | EvSleep (seconds : Q)                       (* await asyncio.sleep(seconds) *)
  | EvLog (lvl : level) (template : string) (args : list log_arg)
  | EvSession (v : verb) (url : string)         (* await self._session.<verb>(url) *)
  | EvAdjustRateLimit (headers : Headers)       (* adjust_rate_limit(headers) entered *)
  | EvLimitRequest (weight : Z)                 (* limit_request(weight) entered *)
  | EvLimitRequestDone.                         (* limit_request returned *)

(** Python's [a < b] on numbers, and two-argument [min]: the first argument
    unless the second is strictly smaller. *)
Definition Qltb (a b : Q) : bool := negb (Qle_bool b a).

Definition pymin (a b : Q) : Q := if Qltb b a then b else a.

(** ** RateLimitContext *)

Module RateLimitContext.

Record t : Type := {
  _max_calls : Z;
  _rate : Q;
  _tokens : Q;
  _last : Q;
  _semaphore : Z          (* permits left in asyncio.Semaphore(max_concurrency) *)
}.

Definition St : Type := (t * Clock)%type.
Abbreviation Gate := (M St event).

Definition self : Gate t := s <- get;; ret (fst s).

Definition set_tokens (v : Q) : Gate unit :=
  modify (fun s : St =>
    ({| _max_calls := _max_calls (fst s); _rate := _rate (fst s); _tokens := v;
        _last := _last (fst s); _semaphore := _semaphore (fst s) |}, snd s)).

Definition set_last (v : Q) : Gate unit :=
  modify (fun s : St =>
    ({| _max_calls := _max_calls (fst s); _rate := _rate (fst s);
        _tokens := _tokens (fst s); _last := v;
        _semaphore := _semaphore (fst s) |}, snd s)).

Definition add_permits (k : Z) (s : St) : St :=
  ({| _max_calls := _max_calls (fst s); _rate := _rate (fst s);
      _tokens := _tokens (fst s); _last := _last (fst s);
      _semaphore := _semaphore (fst s) + k |}, snd s).

(** [time.monotonic()] *)
Definition time_monotonic : Gate Q :=
  modify (fun s : St => (fst s, tick (snd s)));;;
  s <- get;; ret (now (snd s)).

(** [await asyncio.sleep(seconds)]: a delay that is not positive only
    yields. *)
Definition asyncio_sleep (seconds : Q) : Gate unit :=
  emit (EvSleep seconds);;;
  modify (fun s : St => (fst s, advance seconds (snd s))).

(** [a / b] on floats. *)
Definition truediv (a b : Q) : Gate Q :=
  if Qeq_bool b 0
  then raise (Exn ZeroDivisionError "float division by zero")
  else ret (a / b)%Q.

(** [RateLimitContext(max_calls, period, max_concurrency)], run against the
    clock alone.  [max_calls / period] is true division of two ints;
    [asyncio.Semaphore] refuses a negative initial value. *)
Definition __init__ (max_calls period : Z) (max_concurrency : Z)
  : M Clock event t :=
  if (period =? 0)%Z
  then raise (Exn ZeroDivisionError "division by zero")
  else
    let rate := (inject_Z max_calls / inject_Z period)%Q in
    modify tick;;;
    c <- get;;
    if (max_concurrency <? 0)%Z
    then raise (Exn ValueError "Semaphore initial value must be >= 0")
    else ret {| _max_calls := max_calls; _rate := rate;
                _tokens := inject_Z max_calls; _last := now c;
                _semaphore := max_concurrency |}.

Definition set_used_tokens (used : Z) : Gate unit :=
  g <- self;;
  set_tokens (inject_Z (_max_calls g - used)).

Definition sleep (seconds : Q) : Gate unit :=
  asyncio_sleep seconds.

(** [async with self._lock] is the identity here (see the conventions at
    the top); the refill is written out twice, as in the source.  The
    f-string of [logger.debug] is evaluated before the sleep, so the
    quotient is computed twice. *)
Definition _acquire_token (weight : Z) : Gate unit :=
  now_ <- time_monotonic;;
  g <- self;;
  let elapsed := (now_ - _last g)%Q in
  set_last now_;;;
  g <- self;;
  set_tokens (pymin (_tokens g + elapsed * _rate g) (inject_Z (_max_calls g)));;;
  let required_tokens := inject_Z weight in
  g <- self;;
  (if Qltb (_tokens g) required_tokens then
     d <- truediv (required_tokens - _tokens g) (_rate g);;
     emit (EvLog DEBUG "Sleeping for {} seconds" [ArgQ d]);;;
     d <- truediv (required_tokens - _tokens g) (_rate g);;
     asyncio_sleep d;;;
     now_ <- time_monotonic;;
     g <- self;;
     let elapsed := (now_ - _last g)%Q in
     set_last now_;;;
     g <- self;;
     set_tokens (pymin (_tokens g + elapsed * _rate g) (inject_Z (_max_calls g)))
   else ret tt);;;
  g <- self;;
  set_tokens (_tokens g - required_tokens).

(** [async with self._semaphore]: a semaphore with no permit left suspends
    the caller (for ever, when no other coroutine runs); the permit is
    given back however the body ends. *)
Definition limit_request (weight : Z) : Gate unit :=
  g <- self;;
  if (_semaphore g =? 0)%Z then block
  else
    modify (add_permits (-1));;;
    finally (_acquire_token weight) (add_permits 1).

End RateLimitContext.


(** ** AsyncClient *)

(** What httpx gives: a response, [raise_for_status] on it (the exception
    it raises, if it raises), and the session's verbs, each of which may
    return a response, raise, or never answer.  The concrete limiter
    supplies [adjust_rate_limit]; the base class's body is [pass]. *)
Record Response : Type := {
  status_code : Z;
  text : string;
  headers : Headers
}.

Class Httpx : Type := {
  session_send : verb -> string -> outcome Response;
  raise_for_status : Response -> option exn
}.

Class Limiter : Type := {
  adjust_rate_limit : Headers -> RateLimitContext.Gate unit
}.

Definition base_limiter : Limiter :=
  {| adjust_rate_limit := fun _ => ret tt |}.

Module AsyncClient.

Record t : Type := {
  base_url : string;
  _rate_limit_context : option RateLimitContext.t
}.

Definition St : Type := (t * Clock)%type.
Abbreviation Client := (M St event).

Fixpoint endswith_slash (s : string) : bool :=
  match s with
  | EmptyString => false
  | String c EmptyString => Ascii.eqb c "/"%char
  | String _ s' => endswith_slash s'
  end.

(** [s[:-1]] *)
Fixpoint drop_last (s : string) : string :=
  match s with
  | EmptyString => EmptyString
  | String _ EmptyString => EmptyString
  | String c s' => String c (drop_last s')
  end.

Definition __init__ (base_url_ : string)
    (rate_limit_context : option RateLimitContext.t) : t :=
  let base_url_ :=
    if endswith_slash base_url_ then drop_last base_url_ else base_url_ in
  {| base_url := base_url_; _rate_limit_context := rate_limit_context |}.

Definition self : Client t := s <- get;; ret (fst s).

(** A call of a method of [self._rate_limit_context]: attribute lookup on
    [None] raises; otherwise the method runs on the gate and the client's
    clock. *)
Definition on_rate_limit_context {A} (method : string)
    (m : RateLimitContext.Gate A) : Client A :=
  fun s =>
    match _rate_limit_context (fst s) with
    | None =>
        Run (Raise (Exn AttributeError
                      ("'NoneType' object has no attribute '" ++ method ++ "'")))
            s []
    | Some g =>
        match m (g, snd s) with
        | Run o (g', c') tr =>
            Run o ({| base_url := base_url (fst s);
                      _rate_limit_context := Some g' |}, c') tr
        end
    end.

Section Methods.
Context {httpx : Httpx} {limiter : Limiter}.

Definition session (v : verb) (url : string) : Client Response :=
  emit (EvSession v url);;;
  match session_send v url with
  | Return r => ret r
  | Raise e => raise e
  | Blocked => block
  end.

(** Python's [try]/[except] of [_handle], clause by clause: the first
    clause whose class the exception is an instance of runs; an exception
    no clause matches propagates. *)
Definition _handle (response : Response) : Client Response :=
  match raise_for_status response with
  | None => ret response
  | Some e =>
      if isinstance e HTTPStatusError then
        emit (EvLog ERROR "HTTP httpx.Response Error: {} {}"
                [ArgZ (status_code response); ArgStr (text response)]);;;
        ret response
      else if isinstance e RequestError then
        emit (EvLog ERROR
                "Connection error occurred while handling the request: {}"
                [ArgExn e]);;;
        ret response
      else if isinstance e Exception then
        emit (EvLog ERROR
                "Unexpected error occurred while processing the response: {}"
                [ArgExn e]);;;
        ret response
      else raise e
  end.

Definition _get (endpoint : string) (params : option string) : Client Response :=
  c <- self;;
  let url := base_url c ++ endpoint in
  let url :=
    match params with
    | Some (String _ _ as p) => url ++ "?" ++ p      (* if params: *)
    | Some EmptyString | None => url
    end in
  response <- session GET url;;
  on_rate_limit_context "adjust_rate_limit"
    (emit (EvAdjustRateLimit (headers response));;;
     adjust_rate_limit (headers response));;;
  on_rate_limit_context "limit_request"
    (emit (EvLimitRequest 1);;;
     RateLimitContext.limit_request 1;;;
     emit EvLimitRequestDone);;;
  _handle response.

Definition _post (endpoint : string) : Client Response :=
  c <- self;;
  let url := base_url c ++ endpoint in
  response <- session POST url;;
  _handle response.

Definition _put (endpoint : string) : Client Response :=
  c <- self;;
  let url := base_url c ++ endpoint in
  response <- session PUT url;;
  _handle response.

Definition _delete (endpoint : string) : Client Response :=
  c <- self;;
  let url := base_url c ++ endpoint in
  response <- session DELETE url;;
  _handle response.

Definition _post_signed (signed_request : string) : Client Response :=
  response <- session POST signed_request;;
  _handle response.

Definition _delete_signed (signed_request : string) : Client Response :=
  response <- session DELETE signed_request;;
  _handle response.

End Methods.
End AsyncClient.

(** ** Python values on a heap, and [copy.deepcopy] *)

Module Value.

(** A value is immutable ([None], a bool, an int, a str) or a reference to a
    mutable container; containers live on the heap, so that two names can
    hold the same list. *)
Abbreviation loc := nat (only parsing).

Inductive val : Type :=
  | VNone
  | VBool (b : bool)
  | VInt (z : Z)
  | VStr (s : string)
  | VRef (l : loc).

Inductive obj : Type :=
  | OList (items : list val)
  | ODict (items : list (string * val)).

Abbreviation heap := (list obj).

Definition fields (o : obj) : list val :=
  match o with
  | OList xs => xs
  | ODict kvs => snd <$> kvs
  end.

(** The same container with other contents. *)
Definition rebuild (o : obj) (ys : list val) : obj :=
  match o with
  | OList _ => OList ys
  | ODict kvs => ODict (zip (fst <$> kvs) ys)
  end.

(** [bool(v)]: [None], [False], [0], [""], [[]] and [{}] are false. *)
Definition truthy (h : heap) (v : val) : bool :=
  match v with
  | VNone => false
  | VBool b => b
  | VInt z => negb (z =? 0)%Z
  | VStr s => negb (String.eqb s "")
  | VRef l =>
      match h !! l with
      | Some o => match fields o with [] => false | _ :: _ => true end
      | None => true
      end
  end.

Fixpoint copy_all (rec : val -> heap -> gmap loc loc -> option (val * heap * gmap loc loc))
    (xs : list val) (h : heap) (memo : gmap loc loc)
  : option (list val * heap * gmap loc loc) :=
  match xs with
  | [] => Some ([], h, memo)
  | x :: xs' =>
      match rec x h memo with
      | None => None
      | Some (y, h1, memo1) =>
          match copy_all rec xs' h1 memo1 with
          | None => None
          | Some (ys, h2, memo2) => Some (y :: ys, h2, memo2)
          end
      end
  end.

(** [copy.deepcopy(x, memo)].  An object already in [memo] is answered from
    it; an immutable value is its own copy; for a list or a dict a new empty
    container [y] is allocated and recorded in [memo] before the members
    are copied, then filled.  (Python fills [y] member by member; nothing
    reads [y] before the copy ends, so it is filled here in one write.)
    [fuel] bounds the nesting depth. *)
Fixpoint deepcopy_memo (fuel : nat) (x : val) (h : heap) (memo : gmap loc loc)
  : option (val * heap * gmap loc loc) :=
  match x with
  | VRef l =>
      match memo !! l with
      | Some y => Some (VRef y, h, memo)
      | None =>
          match fuel with
          | O => None
          | S fuel' =>
              match h !! l with
              | None => None
              | Some o =>
                  let y := length h in
                  match copy_all (deepcopy_memo fuel') (fields o)
                          ((h ++ [rebuild o []])%list) (<[l := y]> memo) with
                  | None => None
                  | Some (ys, h', memo') =>
                      Some (VRef y, <[y := rebuild o ys]> h', memo')
                  end
              end
          end
      end
  | _ => Some (x, h, memo)
  end.

(** [copy.deepcopy(x)]: no object is nested deeper than there are objects. *)
Definition deepcopy (x : val) (h : heap) : option (val * heap) :=
  match deepcopy_memo (S (length h)) x h ∅ with
  | Some (y, h', _) => Some (y, h')
  | None => None
  end.

End Value.
Import Value.

(** ** Requestor *)

Inductive rq_event : Type :=
  | RqLog (lvl : level) (template : string) (args : list string)
  | RqAwait (task : nat)                    (* await t, t a queued pre-task *)
  | RqDelete (namespace : string) (params : gmap string string)
                                            (* the store deletes an entry *)
  | RqContains (namespace : string) (params : gmap string string)
  | RqFetch (namespace : string) (params : gmap string string) (save : bool)
  | RqRequestFunc (params : gmap string string).
                                            (* _request_func(params): the transport *)

(** A coroutine object made by calling [delete_encoded(namespace, params)]:
    nothing runs until it is awaited, and it can be awaited once. *)
Record coroutine : Type := {
  co_namespace : string;
  co_params : gmap string string;
  co_awaited : bool
}.

(** What a requestor works in: the heap, the store behind [DatabaseManager]
    and every coroutine object made so far (a task is its index). *)
Record World : Type := {
  objects : heap;
  db : gmap (string * gmap string string) val;
  coroutines : list coroutine
}.

(** The concrete endpoint supplies [_request_func]: from the parameters, a
    value (possibly [None]) and the objects it allocated. *)
Class Endpoint : Type := {
  _request_func : gmap string string -> heap -> val * heap
}.

Module Requestor.

Record t : Type := {
  _client : AsyncClient.t;
  _endpoint : string;
  params : gmap string string;
  __required_params : list string;
  __async_tasks : list nat;
  _save : bool;
  _delete_from_db : bool;
  _default_return_value : val
}.

Definition St : Type := (t * World)%type.
Abbreviation Rq := (M St rq_event).

Definition startswith_slash (s : string) : bool :=
  match s with
  | String c _ => Ascii.eqb c "/"%char
  | EmptyString => false
  end.

Definition __init__ (client : AsyncClient.t) (endpoint : string)
    (required_params : list string) (default_return_value : val) : t :=
  let endpoint := if startswith_slash endpoint then endpoint else "/" ++ endpoint in
  {| _client := client; _endpoint := endpoint; params := ∅;
     __required_params := required_params; __async_tasks := [];
     _save := true; _delete_from_db := false;
     _default_return_value := default_return_value |}.

Definition namespace (rq : t) : string :=
  AsyncClient.base_url (_client rq) ++ _endpoint rq.

Definition self : Rq t := s <- get;; ret (fst s).
Definition world : Rq World := s <- get;; ret (snd s).
Definition set_world (f : World -> World) : Rq unit :=
  modify (fun s : St => (fst s, f (snd s))).
Definition set_self (f : t -> t) : Rq unit :=
  modify (fun s : St => (f (fst s), snd s)).

(** [p in self.params] *)
Definition has_param (rq : t) (p : string) : bool :=
  match params rq !! p with Some _ => true | None => false end.

Fixpoint for_each {A} (body : A -> Rq unit) (xs : list A) : Rq unit :=
  match xs with
  | [] => ret tt
  | x :: xs' => body x;;; for_each body xs'
  end.

Definition __has_required_params : Rq bool :=
  rq <- self;;
  for_each (fun p =>
      if negb (has_param rq p)
      then emit (RqLog ERROR "Missing required param: {}" [p])
      else ret tt)
    (__required_params rq);;;
  ret (forallb (has_param rq) (__required_params rq)).

Definition save (flag : bool) : Rq unit :=
  set_self (fun rq =>
    {| _client := _client rq; _endpoint := _endpoint rq; params := params rq;
       __required_params := __required_params rq;
       __async_tasks := __async_tasks rq; _save := flag;
       _delete_from_db := _delete_from_db rq;
       _default_return_value := _default_return_value rq |}).

(** *** The store *)

(** Modelled from the spec: the [DatabaseManager] of [..db], which is not
    among the sources.  [delete(key, params)]: asynchronous, removes the
    entry; calling it makes a coroutine object and runs nothing. *)
Definition delete_encoded (namespace_ : string) (params_ : gmap string string)
  : Rq nat :=
  w <- world;;
  set_world (fun w =>
    {| objects := objects w; db := db w;
       coroutines := (coroutines w ++
         [{| co_namespace := namespace_; co_params := params_;
             co_awaited := false |}])%list |});;;
  ret (length (coroutines w)).

(** [await t] on a coroutine object: it runs, once; Python refuses to
    await it again.  (A task is always the index of a coroutine that was
    made; the last case is there to make the function total.) *)
Definition await (task : nat) : Rq unit :=
  emit (RqAwait task);;;
  w <- world;;
  match coroutines w !! task with
  | Some co =>
      if co_awaited co
      then raise (Exn RuntimeError "cannot reuse already awaited coroutine")
      else
        emit (RqDelete (co_namespace co) (co_params co));;;
        set_world (fun w =>
          {| objects := objects w;
             db := delete (co_namespace co, co_params co) (db w);
             coroutines :=
               <[task := {| co_namespace := co_namespace co;
                            co_params := co_params co;
                            co_awaited := true |}]> (coroutines w) |})
  | None => raise (Exn RuntimeError "cannot reuse already awaited coroutine")
  end.

(** Modelled from the spec: [contains(key, params) -> bool] of the
    [DatabaseManager], which is not among the sources. *)
Definition contains_encoded (namespace_ : string) (params_ : gmap string string)
  : Rq bool :=
  emit (RqContains namespace_ params_);;;
  w <- world;;
  ret (match db w !! (namespace_, params_) with Some _ => true | None => false end).

Section Methods.
Context {endpoint : Endpoint}.

(** Modelled from the spec: [fetchOrCompute(namespace, computeFn, params,
    shouldSave)] of the [DatabaseManager], which is not among the sources:
    the cache returns a stored value if present; otherwise it invokes
    [computeFn(params)], stores the result only if [shouldSave] is true, and
    returns the fresh value. *)
Definition fetch_encoded (namespace_ : string) (params_ : gmap string string)
    (save_ : bool) : Rq val :=
  emit (RqFetch namespace_ params_ save_);;;
  w <- world;;
  match db w !! (namespace_, params_) with
  | Some v => ret v
  | None =>
      emit (RqRequestFunc params_);;;
      let '(v, h) := _request_func params_ (objects w) in
      set_world (fun w =>
        {| objects := h;
           db := if save_ then <[(namespace_, params_) := v]> (db w) else db w;
           coroutines := coroutines w |});;;
      ret v
  end.

Definition delete_from_db : Rq unit :=
  ok <- __has_required_params;;
  if negb ok then ret tt
  else
    rq <- self;;
    task <- delete_encoded (namespace rq) (params rq);;
    set_self (fun rq =>
      {| _client := _client rq; _endpoint := _endpoint rq; params := params rq;
         __required_params := __required_params rq;
         __async_tasks := (__async_tasks rq ++ [task])%list; _save := _save rq;
         _delete_from_db := _delete_from_db rq;
         _default_return_value := _default_return_value rq |}).

Definition request : Rq val :=
  ok <- __has_required_params;;
  if negb ok then raise (Exn RuntimeError "Required params not set")
  else
    rq <- self;;
    (match __async_tasks rq with
     | [] => ret tt
     | _ :: _ => for_each await (__async_tasks rq)
     end);;;
    rq <- self;;
    resp <- fetch_encoded (namespace rq) (params rq) (_save rq);;
    w <- world;;
    if negb (truthy (objects w) resp) then
      match deepcopy (_default_return_value rq) (objects w) with
      | Some (y, h) =>
          set_world (fun w =>
            {| objects := h; db := db w; coroutines := coroutines w |});;;
          ret y
      | None => raise (Exn RecursionError "maximum recursion depth exceeded")
      end
    else ret resp.

Definition request_only : Rq val :=
  rq <- self;;
  hit <- contains_encoded (namespace rq) (params rq);;
  if hit then ret VNone
  else request;;; ret VNone.

End Methods.
End Requestor.

(** ** HTTPRequestor *)

Module HTTPRequestor.

Record t : Type := {
  _client : AsyncClient.t;
  _endpoint : string;
  params : gmap string string;
  _required_params : list string
}.

(** It has no store: it works on the heap alone. *)
Definition St : Type := (t * heap)%type.
Abbreviation Rq := (M St rq_event).

Definition __init__ (client : AsyncClient.t) (endpoint : string)
    (required_params : list string) : t :=
  {| _client := client;
     _endpoint := if Requestor.startswith_slash endpoint
                  then endpoint else "/" ++ endpoint;
     params := ∅;
     _required_params := required_params |}.

Definition self : Rq t := s <- get;; ret (fst s).

(** [[p for p in self._required_params if p not in self.params]] *)
Definition missing_params (rq : t) : list string :=
  List.filter (fun p => match params rq !! p with Some _ => false | None => true end)
         (_required_params rq).

Definition has_required_params : Rq bool :=
  rq <- self;;
  match missing_params rq with
  | _ :: _ =>
      emit (RqLog WARNING "Missing required params: {}" (missing_params rq));;;
      ret false
  | [] => ret true
  end.

Section Methods.
Context {endpoint : Endpoint}.

Definition request : Rq val :=
  ok <- has_required_params;;
  if negb ok then ret VNone
  else
    rq <- self;;
    emit (RqRequestFunc (params rq));;;
    fun s =>
      let '(v, h) := _request_func (params rq) (snd s) in
      Run (Return v) (fst s, h) [].

End Methods.
End HTTPRequestor.
(** * Specification-side definitions *)

Module Spec.
(** The refill step in the specification's words:
    [elapsed = now - lastRefillTime],
    [tokens = min(capacity, tokens + elapsed * refillRate)],
    [lastRefillTime = now].  Returns the new [tokens]. *)
Definition refill (capacity refillRate : Q) (tokens lastRefillTime now_ : Q) : Q :=
  let elapsed := (now_ - lastRefillTime)%Q in
  Qmin capacity (tokens + elapsed * refillRate).
End Spec.


Import RateLimitContext.

(** What one run of [_acquire_token] computes, in the code's own terms. *)
Definition refilled (g : t) (now_ : Q) : Q :=
  pymin (_tokens g + (now_ - _last g) * _rate g) (inject_Z (_max_calls g)).

Definition with_balance (g : t) (tokens last_ : Q) : t :=
  {| _max_calls := _max_calls g; _rate := _rate g; _tokens := tokens;
     _last := last_; _semaphore := _semaphore g |}.


(** The operations a caller can run on a gate, and the histories of a gate:
    construction, then any number of completed operations, each started at
    or after the time the previous one ended, on a monotonic clock.  [ok]
    says which arguments an operation may be given. *)
Inductive op : Type :=
  | AcquireToken (weight : Z)
  | LimitRequest (weight : Z)
  | SetUsedTokens (used : Z)
  | Sleep (seconds : Q).

Definition run_op (o : op) : Gate unit :=
  match o with
  | AcquireToken w => _acquire_token w
  | LimitRequest w => limit_request w
  | SetUsedTokens u => set_used_tokens u
  | Sleep s => sleep s
  end.

Definition later (c : Clock) (wait : Q) (lags' : list Q) : Clock :=
  {| now := now c + wait; lags := lags' |}.

Inductive history (ok : t -> op -> Prop)
    (max_calls period max_concurrency : Z) : St -> Prop :=
  | history_init (c : Clock) (r : run Clock event t) (g : t) :
      monotone c ->
      r = __init__ max_calls period max_concurrency c ->
      out r = Return g ->
      history ok max_calls period max_concurrency (g, final r)
  | history_step (s : St) (o : op) (wait : Q) (lags' : list Q)
      (r : run St event unit) :
      history ok max_calls period max_concurrency s ->
      ok (fst s) o ->
      (0 <= wait)%Q ->
      Forall (fun d => 0 <= d)%Q lags' ->
      r = run_op o (fst s, later (snd s) wait lags') ->
      out r = Return tt ->
      history ok max_calls period max_concurrency (final r).

(** The arguments the specification allows: [w <= capacity] for an
    acquisition, [0 <= used <= capacity] for [set_used_tokens]. *)
Definition ok_as_specified (g : t) (o : op) : Prop :=
  match o with
  | AcquireToken w | LimitRequest w => (w <= _max_calls g)%Z
  | SetUsedTokens u => (0 <= u <= _max_calls g)%Z
  | Sleep _ => True
  end.

(** The same, with weights that are not negative. *)
Definition ok_nonneg (g : t) (o : op) : Prop :=
  match o with
  | AcquireToken w | LimitRequest w => (0 <= w <= _max_calls g)%Z
  | SetUsedTokens u => (0 <= u <= _max_calls g)%Z
  | Sleep _ => True
  end.

(** The balance is never negative; when [bounded] holds it is at most the
    capacity as well. *)
Definition balance_in_range (bounded : Prop) (g : t) : Prop :=
  (0 <= _tokens g)%Q /\ (bounded -> (_tokens g <= inject_Z (_max_calls g))%Q).

Definition gate_inv (bounded : Prop) (max_calls period : Z) (s : St) : Prop :=
  _max_calls (fst s) = max_calls /\
  _rate (fst s) = (inject_Z max_calls / inject_Z period)%Q /\
  balance_in_range bounded (fst s) /\
  (_last (fst s) <= now (snd s))%Q.

(** A concrete gate for examples: [RateLimitContext(2, 1)] built at time 0
    on a clock that adds no lag, then operations run back to back. *)
Definition clock0 : Clock := {| now := 0; lags := [] |}.

Definition gate21 : St := (
  {| _max_calls := 2; _rate := inject_Z 2 / inject_Z 1; _tokens := inject_Z 2;
     _last := 0; _semaphore := 1 |}, clock0).

Definition after (o : op) (s : St) : St :=
  final (run_op o (fst s, later (snd s) 0 [])).

(** ** AsyncClient *)

(** The URL [_get] asks for. *)
Definition get_url (cl : AsyncClient.t) (endpoint : string)
    (params : option string) : string :=
  match params with
  | Some (String _ _ as p) => (AsyncClient.base_url cl ++ endpoint) ++ "?" ++ p
  | Some EmptyString | None => AsyncClient.base_url cl ++ endpoint
  end.

(** The line [_handle] logs for an exception of each of its three kinds. *)
Definition handle_log (response : Response) (e : exn) : event :=
  if isinstance e HTTPStatusError then
    EvLog ERROR "HTTP httpx.Response Error: {} {}"
      [ArgZ (status_code response); ArgStr (text response)]
  else if isinstance e RequestError then
    EvLog ERROR "Connection error occurred while handling the request: {}"
      [ArgExn e]
  else
    EvLog ERROR "Unexpected error occurred while processing the response: {}"
      [ArgExn e].

(** The order the specification gives for [get]: a call of the session
    comes only after [limit_request] has returned. *)
Definition gate_before_network (tr : list event) : Prop :=
  forall (before after_ : list event) (v : verb) (url : string),
    tr = (before ++ EvSession v url :: after_)%list ->
    In EvLimitRequestDone before.

(** An httpx for examples: every request is answered, with the status
    asked for in the URL's place; [raise_for_status] raises from 400 up. *)
Definition httpx_echo (status : Z) : Httpx :=
  {| session_send := fun _ _ =>
       Return {| status_code := status; text := "body";
                 headers := [("x-ratelimit-remaining", "1")] |};
     raise_for_status := fun r =>
       if (400 <=? status_code r)%Z
       then Some (Exn HTTPStatusError "Client error")
       else None |}.

Definition client21 : AsyncClient.St :=
  (AsyncClient.__init__ "https://api.example/" (Some (fst gate21)), clock0).

(** The log lines of [__has_required_params]: one per missing parameter, in
    the order of [__required_params]. *)
Definition missing_logs (rq : Requestor.t) : list rq_event :=
  map (fun p => RqLog ERROR "Missing required param: {}" [p])
      (filter (fun p => negb (Requestor.has_param rq p))
              (Requestor.__required_params rq)).

Definition is_log (e : rq_event) : Prop :=
  match e with RqLog _ _ _ => True | _ => False end.

(** Endpoints for examples: one whose transport yields [7], one whose
    transport yields nothing. *)
Definition endpoint_seven : Endpoint :=
  {| _request_func := fun _ h => (VInt 7, h) |}.

Definition endpoint_none : Endpoint :=
  {| _request_func := fun _ h => (VNone, h) |}.

Definition client0 : AsyncClient.t :=
  AsyncClient.__init__ "https://api.example/" None.

(** [Requestor(dbm, client0, "book", ["symbol"], default)] with
    [params["symbol"] = "BTC"]. *)
Definition book (default : val) : Requestor.t :=
  let rq := Requestor.__init__ client0 "book" ["symbol"] default in
  {| Requestor._client := Requestor._client rq;
     Requestor._endpoint := Requestor._endpoint rq;
     Requestor.params := <["symbol" := "BTC"]> (Requestor.params rq);
     Requestor.__required_params := Requestor.__required_params rq;
     Requestor.__async_tasks := Requestor.__async_tasks rq;
     Requestor._save := Requestor._save rq;
     Requestor._delete_from_db := Requestor._delete_from_db rq;
     Requestor._default_return_value := Requestor._default_return_value rq |}.

Definition world0 : World := {| objects := []; db := ∅; coroutines := [] |}.

Definition reuse_error : exn :=
  Exn RuntimeError "cannot reuse already awaited coroutine".

(** The three steps of [request()] after the parameter check, named: the
    pre-tasks, and what is returned once the fetch has answered [resp]. *)
Definition await_tasks (rq : Requestor.t) : Requestor.Rq unit :=
  match Requestor.__async_tasks rq with
  | [] => ret tt
  | _ :: _ => Requestor.for_each Requestor.await (Requestor.__async_tasks rq)
  end.

Definition with_objects (w : World) (h : heap) : World :=
  {| objects := h; db := db w; coroutines := coroutines w |}.

Definition answer (rq : Requestor.t) (resp : val) (w : World)
    (tr : list rq_event) : run Requestor.St rq_event val :=
  if truthy (objects w) resp then Run (Return resp) (rq, w) tr
  else
    match deepcopy (Requestor._default_return_value rq) (objects w) with
    | Some (y, h) => Run (Return y) (rq, with_objects w h) tr
    | None =>
        Run (Raise (Exn RecursionError "maximum recursion depth exceeded"))
            (rq, w) tr
    end.

(** ** Heaps: well-formedness, structure, reachability *)

(** A value is well-formed below [n] when it is immutable or refers to one
    of the first [n] objects; a heap is well-formed when no object refers
    outside it (as in any Python run). *)
Definition val_ok (n : nat) (v : val) : Prop :=
  match v with VRef l => l < n | _ => True end.

Definition heap_wf (h : heap) : Prop :=
  forall l o, h !! l = Some o -> Forall (val_ok (length h)) (fields o).

(** The structure of a value: the tree one sees by following references,
    identities forgotten.  [None] when the value is nested deeper than
    [depth] (a cyclic value is, for every depth). *)
#[warnings="-register-all"]
Inductive tree : Type :=
  | TNone
  | TBool (b : bool)
  | TInt (z : Z)
  | TStr (s : string)
  | TList (items : list tree)
  | TDict (items : list (string * tree)).

Definition node (o : obj) (ts : list tree) : tree :=
  match o with
  | OList _ => TList ts
  | ODict kvs => TDict (zip (fst <$> kvs) ts)
  end.

Fixpoint view (depth : nat) (h : heap) (v : val) : option tree :=
  match v with
  | VNone => Some TNone
  | VBool b => Some (TBool b)
  | VInt z => Some (TInt z)
  | VStr s => Some (TStr s)
  | VRef l =>
      match depth with
      | O => None
      | S depth' =>
          match h !! l with
          | None => None
          | Some o =>
              match mapM (view depth' h) (fields o) with
              | None => None
              | Some ts => Some (node o ts)
              end
          end
      end
  end.

(** [reach h v l]: the object at [l] is [v] or a member, at any depth, of
    [v]. Mutating [v] is writing to such an object. *)
Inductive reach (h : heap) : val -> loc -> Prop :=
  | reach_here (l : loc) : reach h (VRef l) l
  | reach_member (l : loc) (o : obj) (v : val) (k : loc) :
      h !! l = Some o -> v ∈ fields o -> reach h v k -> reach h (VRef l) k.

(** The copy of [v] under a memo, and the values a memo has a copy for. *)
Definition rename (memo : gmap loc loc) (v : val) : val :=
  match v with
  | VRef l => match memo !! l with Some l' => VRef l' | None => v end
  | _ => v
  end.

Definition covered (memo : gmap loc loc) (v : val) : Prop :=
  match v with VRef l => is_Some (memo !! l) | _ => True end.

Section Copying.
Variable h0 : heap.

(** The state of a copy of objects of [h0] in progress: the original
    objects are in place; [memo] sends original objects to new ones; the
    copy of every object that is not [pending] is complete, which is to say
    it is the original with every member renamed by [memo]. *)
Record copying (pending : loc -> Prop) (h : heap) (memo : gmap loc loc) : Prop := {
  copying_length : length h0 <= length h;
  copying_old : forall l o, h0 !! l = Some o -> h !! l = Some o;
  copying_range : forall l l', memo !! l = Some l' ->
      l < length h0 /\ length h0 <= l' < length h;
  copying_done : forall l l', memo !! l = Some l' -> ~ pending l ->
      exists o, h0 !! l = Some o /\ Forall (covered memo) (fields o) /\
                h !! l' = Some (rebuild o (rename memo <$> fields o))
}.

(** One step of it, from [(h, m)] to [(h', m')]: the memo only grows, and
    what it gains are objects allocated meanwhile. *)
Record copied (pending : loc -> Prop) (h : heap) (m : gmap loc loc)
    (h' : heap) (m' : gmap loc loc) : Prop := {
  copied_state : copying pending h' m';
  copied_memo : m ⊆ m';
  copied_length : length h <= length h';
  copied_new : forall l l', m' !! l = Some l' -> m !! l = None -> length h <= l'
}.

(** A copier that does its work whenever [fuel] covers the objects not yet
    in the memo. *)
Definition copier (fuel : nat)
    (rec : val -> heap -> gmap loc loc -> option (val * heap * gmap loc loc))
  : Prop :=
  forall pending x h m,
    copying pending h m -> val_ok (length h0) x ->
    length h0 <= size m + fuel ->
    exists y h' m',
      rec x h m = Some (y, h', m') /\ copied pending h m h' m' /\
      covered m' x /\ y = rename m' x.

End Copying.

(** A world whose heap holds one empty list, at location 0: the default of
    [Requestor(..., default_return_value=[])]. *)
Definition world_with_empty_list : World :=
  {| objects := [OList []]; db := ∅; coroutines := [] |}.

(** ** More of the code: definitions for its properties *)

(** A trace that holds calls of the session and log lines only: nothing of
    the rate limiter. *)
Definition is_log_event (e : event) : Prop :=
  match e with EvLog _ _ _ => True | _ => False end.

(** An httpx whose [raise_for_status] is interrupted from the keyboard, and
    one whose session cannot connect. *)
Definition httpx_interrupted : Httpx :=
  {| session_send := fun _ _ =>
       Return {| status_code := 200; text := "body"; headers := [] |};
     raise_for_status := fun _ => Some (Exn KeyboardInterrupt "") |}.

Definition httpx_down : Httpx :=
  {| session_send := fun _ _ => Raise (Exn ConnectError "connection refused");
     raise_for_status := fun _ => None |}.

(** A client with no rate limiter, the constructor's default. *)
Definition client_unlimited : AsyncClient.St :=
  (AsyncClient.__init__ "https://api.example/" None, clock0).

(** What awaiting the tasks of a queue, all of them fresh, leaves in the
    trace: for each, the await and the deletion it runs. *)
Definition awaits (w : World) (tasks : list nat) : list rq_event :=
  flat_map (fun task =>
      match coroutines w !! task with
      | Some co => [RqAwait task; RqDelete (co_namespace co) (co_params co)]
      | None => [RqAwait task]
      end) tasks.

(** A queue of fresh tasks: each is a coroutine that exists and was never
    awaited, and none is queued twice. *)
Definition fresh_tasks (w : World) (tasks : list nat) : Prop :=
  NoDup tasks /\
  forall task, task ∈ tasks ->
    exists co, coroutines w !! task = Some co /\ co_awaited co = false.

(** [HTTPRequestor(client0, "book", ["symbol", "limit"])], nothing set. *)
Definition http_book : HTTPRequestor.t :=
  HTTPRequestor.__init__ client0 "book" ["symbol"; "limit"].

(** * Properties *)

(** ** The monad *)

Lemma bind_unfold {S E A B} (m : M S E A) (k : A -> M S E B) (s : S) :
  bind m k s =
    match m s with
    | Run (Return a) s1 tr1 =>
        match k a s1 with
        | Run o s2 tr2 => Run o s2 (tr1 ++ tr2)
        end
    | Run (Raise e) s1 tr1 => Run (Raise e) s1 tr1
    | Run Blocked s1 tr1 => Run Blocked s1 tr1
    end.
Proof. reflexivity. Qed.

Lemma bind_return {S E A B} (m : M S E A) (k : A -> M S E B) (s s1 : S)
    (a : A) (tr1 : list E) :
  m s = Run (Return a) s1 tr1 ->
  bind m k s = Run (out (k a s1)) (final (k a s1)) (tr1 ++ trace (k a s1)).
Proof. intros H. rewrite bind_unfold, H. now destruct (k a s1). Qed.

Lemma Qltb_lt (a b : Q) : Qltb a b = true <-> (a < b)%Q.
Proof.
  unfold Qltb. rewrite negb_true_iff.
  destruct (Qle_bool b a) eqn:E.
  - apply Qle_bool_iff in E. split; [discriminate | intros H; lra].
  - split; [intros _ | reflexivity].
    apply Qnot_le_lt. intros H. apply Qle_bool_iff in H. congruence.
Qed.

Lemma Qltb_ge (a b : Q) : Qltb a b = false <-> (b <= a)%Q.
Proof.
  unfold Qltb. rewrite negb_false_iff. apply Qle_bool_iff.
Qed.

Lemma Qltb_proper : Proper (Qeq ==> Qeq ==> eq) Qltb.
Proof. intros a a' Ha b b' Hb. unfold Qltb. now rewrite Ha, Hb. Qed.

Lemma pymin_Qmin (a b : Q) : (pymin a b == Qmin b a)%Q.
Proof.
  unfold pymin. destruct (Qltb b a) eqn:E.
  - apply Qltb_lt in E. symmetry. apply Q.min_l. lra.
  - apply Qltb_ge in E. symmetry. apply Q.min_r. lra.
Qed.

Lemma pymin_le_r (a b : Q) : (pymin a b <= b)%Q.
Proof. rewrite pymin_Qmin. apply Q.le_min_l. Qed.

Lemma pymin_glb (a b x : Q) : (x <= a -> x <= b -> x <= pymin a b)%Q.
Proof. intros Ha Hb. rewrite pymin_Qmin. now apply Q.min_glb. Qed.

Lemma truediv_nonzero (a b : Q) (s : St) :
  ~ (b == 0)%Q -> truediv a b s = Run (Return (a / b)%Q) s [].
Proof.
  intros H. unfold truediv.
  destruct (Qeq_bool b 0) eqn:E; [apply Qeq_bool_iff in E; contradiction | reflexivity].
Qed.

Lemma acquire_token_run (g : t) (c : Clock) (weight : Z) :
  ~ (_rate g == 0)%Q ->
  let c1 := tick c in
  let t1 := refilled g (now c1) in
  let w := inject_Z weight in
  _acquire_token weight (g, c) =
    if Qltb t1 w then
      let d := ((w - t1) / _rate g)%Q in
      let c2 := tick (advance d c1) in
      let t2 := refilled (with_balance g t1 (now c1)) (now c2) in
      Run (Return tt) (with_balance g (t2 - w) (now c2), c2)
          [EvLog DEBUG "Sleeping for {} seconds" [ArgQ d]; EvSleep d]
    else
      Run (Return tt) (with_balance g (t1 - w) (now c1), c1) [].
Proof.
  intros Hr. unfold _acquire_token, refilled. cbn.
  destruct (Qltb _ _) eqn:E; cbn; [| reflexivity].
  unfold truediv.
  destruct (Qeq_bool (_rate g) 0) eqn:E0;
    [apply Qeq_bool_iff in E0; contradiction | reflexivity].
Qed.

Lemma refilled_spec (g : t) (now_ : Q) :
  (refilled g now_ ==
   Spec.refill (inject_Z (_max_calls g)) (_rate g) (_tokens g) (_last g) now_)%Q.
Proof. unfold refilled, Spec.refill. apply pymin_Qmin. Qed.

Lemma refill_proper (cap rate t t' l n : Q) :
  (t == t')%Q -> (Spec.refill cap rate t l n == Spec.refill cap rate t' l n)%Q.
Proof. intros H. unfold Spec.refill. now rewrite H. Qed.



(** *** The clock *)

Lemma tick_now_le (c : Clock) : monotone c -> (now c <= now (tick c))%Q.
Proof.
  unfold monotone, tick. intros H.
  destruct (lags c) as [| d ds]; [lra |].
  cbn. inversion H; subst. lra.
Qed.

Lemma advance_now_le (d : Q) (c : Clock) : (now c + d <= now (advance d c))%Q.
Proof. cbn. pose proof (Q.le_max_r 0 d). lra. Qed.

Lemma advance_now_mono (d : Q) (c : Clock) : (now c <= now (advance d c))%Q.
Proof. cbn. pose proof (Q.le_max_l 0 d). lra. Qed.

Lemma advance_monotone (d : Q) (c : Clock) : monotone c -> monotone (advance d c).
Proof. exact (fun H => H). Qed.

Lemma tick_monotone (c : Clock) : monotone c -> monotone (tick c).
Proof.
  unfold monotone, tick. intros H.
  destruct (lags c) as [| d ds] eqn:E; [now rewrite E |].
  cbn. now inversion H.
Qed.

(** *** One acquisition keeps the balance in range *)

Lemma refilled_in_range (g : t) (n : Q) :
  (0 <= _rate g)%Q -> (0 <= _tokens g)%Q -> (0 <= inject_Z (_max_calls g))%Q ->
  (_last g <= n)%Q ->
  (0 <= refilled g n)%Q /\ (refilled g n <= inject_Z (_max_calls g))%Q.
Proof.
  intros Hr Ht Hc Hl. unfold refilled. split; [| apply pymin_le_r].
  apply pymin_glb; [| assumption].
  assert (0 <= (n - _last g) * _rate g)%Q by (apply Qmult_le_0_compat; lra).
  lra.
Qed.

Lemma acquire_token_in_range (bounded : Prop) (g : t) (c : Clock) (weight : Z) :
  (0 < _rate g)%Q -> (0 <= _max_calls g)%Z ->
  balance_in_range bounded g -> (_last g <= now c)%Q ->
  monotone c -> (weight <= _max_calls g)%Z -> (bounded -> (0 <= weight)%Z) ->
  let r := _acquire_token weight (g, c) in
  out r = Return tt /\
  balance_in_range bounded (fst (final r)) /\
  (_last (fst (final r)) <= now (snd (final r)))%Q /\
  _max_calls (fst (final r)) = _max_calls g /\
  _rate (fst (final r)) = _rate g /\
  _semaphore (fst (final r)) = _semaphore g.
Proof.
  intros Hr Hcap0 [Ht0 Ht1] Hl Hc Hw1 Hw0 r.
  assert (Hr0 : ~ (_rate g == 0)%Q) by lra.
  subst r. rewrite (acquire_token_run g c weight Hr0).
  set (c1 := tick c). set (w := inject_Z weight).
  set (cap := inject_Z (_max_calls g)) in *.
  assert (Hcap : (0 <= cap)%Q) by (unfold cap; now rewrite <- (Zle_Qle 0)).
  assert (Hw0' : bounded -> (0 <= w)%Q)
    by (intros Hb; unfold w; rewrite <- (Zle_Qle 0); auto).
  assert (Hw1' : (w <= cap)%Q) by (unfold w, cap; now rewrite <- Zle_Qle).
  assert (Hc1 : (now c <= now c1)%Q) by now apply tick_now_le.
  assert (Hin : (0 <= refilled g (now c1))%Q /\ (refilled g (now c1) <= cap)%Q).
  { apply refilled_in_range; fold cap; lra. }
  destruct Hin as [Ha Hb].
  destruct (Qltb (refilled g (now c1)) w) eqn:E; cbn.
  - apply Qltb_lt in E.
    set (t1 := refilled g (now c1)) in *.
    set (d := ((w - t1) / _rate g)%Q).
    set (c2 := tick (advance d c1)).
    assert (Hd : (d * _rate g == w - t1)%Q) by (unfold d; field; exact Hr0).
    assert (Hc2 : (now c1 + d <= now c2)%Q).
    { pose proof (advance_now_le d c1).
      pose proof (tick_now_le (advance d c1)
                    (advance_monotone d c1 (tick_monotone c Hc))).
      fold c2 in H0. lra. }
    assert (Hmul : (d * _rate g <= (now c2 - now c1) * _rate g)%Q)
      by (apply Qmult_le_compat_r; lra).
    set (t2 := refilled (with_balance g t1 (now c1)) (now c2)).
    assert (Ht2 : (w <= t2)%Q).
    { unfold t2, refilled. cbn. fold cap. apply pymin_glb; lra. }
    assert (Ht2' : (t2 <= cap)%Q) by apply pymin_le_r.
    unfold balance_in_range. cbn. fold cap.
    repeat split; intros; lra.
  - apply Qltb_ge in E.
    unfold balance_in_range. cbn. fold cap.
    repeat split; intros; try lra.
    assert (0 <= w)%Q by auto. lra.
Qed.

Lemma limit_request_run (g : t) (c : Clock) (weight : Z) :
  limit_request weight (g, c) =
    if (_semaphore g =? 0)%Z then Run Blocked (g, c) []
    else finally (_acquire_token weight) (add_permits 1) (add_permits (-1) (g, c)).
Proof.
  unfold limit_request. cbn. destruct (_semaphore g =? 0)%Z; cbn; [reflexivity |].
  now destruct (finally _ _ _).
Qed.

(** *** Histories *)

Lemma rate_positive (max_calls period : Z) :
  (0 < max_calls)%Z -> (0 < period)%Z ->
  (0 < inject_Z max_calls / inject_Z period)%Q.
Proof.
  intros Hm Hp.
  assert (0 < inject_Z max_calls)%Q by now rewrite <- (Zlt_Qlt 0).
  assert (0 < inject_Z period)%Q by now rewrite <- (Zlt_Qlt 0).
  apply Qlt_shift_div_l; lra.
Qed.

Lemma init_run (max_calls period max_concurrency : Z) (c : Clock) :
  __init__ max_calls period max_concurrency c =
    if (period =? 0)%Z
    then Run (Raise (Exn ZeroDivisionError "division by zero")) c []
    else if (max_concurrency <? 0)%Z
    then Run (Raise (Exn ValueError "Semaphore initial value must be >= 0"))
             (tick c) []
    else Run (Return {| _max_calls := max_calls;
                        _rate := inject_Z max_calls / inject_Z period;
                        _tokens := inject_Z max_calls;
                        _last := now (tick c);
                        _semaphore := max_concurrency |}) (tick c) [].
Proof.
  unfold __init__. destruct (period =? 0)%Z; [reflexivity |].
  cbn. now destruct (max_concurrency <? 0)%Z.
Qed.

Lemma history_inv (bounded : Prop) (ok : t -> op -> Prop)
    (max_calls period max_concurrency : Z) (s : St) :
  (forall g o, ok g o -> ok_as_specified g o) ->
  (forall g o, ok g o -> bounded -> ok_nonneg g o) ->
  (0 < max_calls)%Z -> (0 < period)%Z ->
  history ok max_calls period max_concurrency s ->
  gate_inv bounded max_calls period s.
Proof.
  intros Hspec Hnonneg Hm Hp H.
  pose proof (rate_positive max_calls period Hm Hp) as Hrate.
  induction H as [c r g Hc Hr Hout | s o wait lags' r H IH Hok Hwait Hlags Hr Hout].
  - rewrite init_run in Hr.
    destruct (period =? 0)%Z; [subst r; discriminate |].
    destruct (max_concurrency <? 0)%Z; [subst r; discriminate |].
    subst r. cbn in Hout. injection Hout as <-.
    assert (0 <= inject_Z max_calls)%Q by (rewrite <- (Zle_Qle 0); lia).
    unfold gate_inv, balance_in_range. cbn. repeat split; intros; lra.
  - destruct s as [g c]. destruct IH as (Hmc & Hrt & Hbal & Hlast).
    cbn [fst snd] in *.
    set (c' := later c wait lags') in *.
    assert (Hc' : monotone c') by exact Hlags.
    assert (Hl' : (_last g <= now c')%Q) by (cbn; lra).
    assert (Hrg : (0 < _rate g)%Q) by (rewrite Hrt; assumption).
    assert (Hcap : (0 <= _max_calls g)%Z) by lia.
    pose proof (Hspec g o Hok) as Hok1.
    pose proof (Hnonneg g o Hok) as Hok2.
    destruct o as [w | w | u | secs]; cbn [run_op] in Hr;
      cbn [ok_as_specified ok_nonneg] in Hok1, Hok2.
    + subst r.
      destruct (acquire_token_in_range bounded g c' w Hrg Hcap Hbal Hl' Hc' Hok1)
        as (_ & Hb & Hl & Hm' & Hr' & _); [intros Hbd; apply Hok2, Hbd |].
      repeat split; try apply Hb; try congruence; assumption.
    + rewrite limit_request_run in Hr.
      destruct (_semaphore g =? 0)%Z; [subst r; discriminate |].
      pose proof (acquire_token_in_range bounded (fst (add_permits (-1) (g, c'))) c' w
                    Hrg Hcap Hbal Hl' Hc' Hok1) as Hacq.
      cbv zeta in Hacq.
      unfold finally in Hr. cbn [add_permits fst snd] in Hr, Hacq.
      destruct (_acquire_token w _) as [o' [g1 c1] tr1].
      cbn [out final fst snd] in Hacq.
      destruct Hacq as (Ho & Hb & Hl & Hm' & Hr' & _);
        [intros Hbd; apply Hok2, Hbd |].
      subst o'. subst r. unfold gate_inv, balance_in_range.
      cbn [out final fst snd add_permits _max_calls _rate _tokens _last].
      cbn [_max_calls] in Hm'. cbn [_rate] in Hr'.
      repeat split; try apply Hb; try congruence; assumption.
    + subst r. unfold gate_inv, balance_in_range. cbn. rewrite Hmc.
      assert (0 <= inject_Z (max_calls - u))%Q by (rewrite <- (Zle_Qle 0); lia).
      assert (inject_Z (max_calls - u) <= inject_Z max_calls)%Q
        by (rewrite <- Zle_Qle; lia).
      repeat split; intros; assumption.
    + subst r. change (final (sleep secs (g, c'))) with (g, advance secs c').
      pose proof (advance_now_mono secs c').
      repeat split; cbn [fst snd]; try assumption; try apply Hbal. lra.
Qed.


Lemma history_gate21 (ok : t -> op -> Prop) : history ok 2 1 1 gate21.
Proof.
  apply (history_init ok 2 1 1 clock0 (__init__ 2 1 1 clock0)
           {| _max_calls := 2; _rate := inject_Z 2 / inject_Z 1;
              _tokens := inject_Z 2; _last := 0; _semaphore := 1 |}).
  - constructor.
  - reflexivity.
  - reflexivity.
Qed.

Lemma history_after (ok : t -> op -> Prop) (o : op) (s : St) :
  history ok 2 1 1 s -> ok (fst s) o ->
  out (run_op o (fst s, later (snd s) 0 [])) = Return tt ->
  history ok 2 1 1 (after o s).
Proof.
  intros H Hok Hout.
  apply (history_step ok 2 1 1 s o 0 [] _ H Hok); try reflexivity;
    [lra | constructor | exact Hout].
Qed.





(** *** Construction *)



(** *** The scenarios of the specification *)

(** [RateLimitContext(2, 1)]: two immediate [_acquire_token(1)] do not
    wait; a third one sleeps for half a second. *)
Example third_acquire_waits_half_a_second :
  let s2 := after (AcquireToken 1) (after (AcquireToken 1) gate21) in
  trace (_acquire_token 1 gate21) = [] /\
  trace (_acquire_token 1 (after (AcquireToken 1) gate21)) = [] /\
  trace (_acquire_token 1 s2) =
    [EvLog DEBUG "Sleeping for {} seconds" [ArgQ (1 # 2)]; EvSleep (1 # 2)] /\
  (_tokens (fst (final (_acquire_token 1 s2))) == 0)%Q.
Proof. vm_compute. repeat split. Qed.

(** [set_used_tokens(capacity)] then [_acquire_token(1)]: one wait. *)
Example acquire_after_all_used_waits_once :
  let s1 := after (SetUsedTokens 2) gate21 in
  _tokens (fst s1) = 0%Q /\
  trace (_acquire_token 1 s1) =
    [EvLog DEBUG "Sleeping for {} seconds" [ArgQ (1 # 2)]; EvSleep (1 # 2)].
Proof. vm_compute. repeat split. Qed.

(** ** AsyncClient *)

Section ClientFacts.
Context {httpx : Httpx} {limiter : Limiter}.

Lemma issubclass_Exception_of_HTTPStatusError (e : exn) :
  isinstance e HTTPStatusError = true -> isinstance e Exception = true.
Proof. destruct e as [[] msg]; cbn; congruence. Qed.

Lemma issubclass_Exception_of_RequestError (e : exn) :
  isinstance e RequestError = true -> isinstance e Exception = true.
Proof. destruct e as [[] msg]; cbn; congruence. Qed.


(** An exception that is no [Exception] (a [KeyboardInterrupt]) is the one
    thing [_handle] lets through. *)
Lemma handle_propagates_base_exception (response : Response)
    (s : AsyncClient.St) (e : exn) :
  raise_for_status response = Some e -> isinstance e Exception = false ->
  out (AsyncClient._handle response s) = Raise e.
Proof.
  intros He Hno. unfold AsyncClient._handle. rewrite He.
  destruct (isinstance e HTTPStatusError) eqn:E1;
    [apply issubclass_Exception_of_HTTPStatusError in E1; congruence |].
  destruct (isinstance e RequestError) eqn:E2;
    [apply issubclass_Exception_of_RequestError in E2; congruence |].
  now rewrite Hno.
Qed.

Lemma get_url_eq (cl : AsyncClient.t) (endpoint : string) (params : option string) :
  match params with
  | Some (String _ _ as p) => (AsyncClient.base_url cl ++ endpoint) ++ "?" ++ p
  | Some EmptyString | None => AsyncClient.base_url cl ++ endpoint
  end = get_url cl endpoint params.
Proof.
  reflexivity.
Qed.

(** The network call is the first thing [_get] does, whatever follows. *)
Lemma get_sends_first (endpoint : string) (params : option string)
    (s : AsyncClient.St) :
  exists rest,
    trace (AsyncClient._get endpoint params s) =
    EvSession GET (get_url (fst s) endpoint params) :: rest.
Proof.
  destruct s as [cl c]. unfold AsyncClient._get.
  rewrite (bind_return _ _ _ (cl, c) cl []) by reflexivity.
  cbn [trace app]. rewrite get_url_eq.
  rewrite bind_unfold. unfold AsyncClient.session.
  rewrite bind_unfold. cbn [emit].
  destruct (session_send GET _) as [resp | e |]; cbn [ret raise block]; cbn [app].
  - match goal with |- context [match ?x with Run _ _ _ => _ end] => destruct x end.
    destruct out0; eauto.
  - eauto.
  - eauto.
Qed.

Lemma on_rate_limit_context_return {A} (method : string)
    (m : RateLimitContext.Gate A) (cl : AsyncClient.t) (c : Clock)
    (g : RateLimitContext.t) :
  AsyncClient._rate_limit_context cl = Some g ->
  AsyncClient.on_rate_limit_context method m (cl, c) =
  Run (out (m (g, c)))
      ({| AsyncClient.base_url := AsyncClient.base_url cl;
          AsyncClient._rate_limit_context := Some (fst (final (m (g, c)))) |},
       snd (final (m (g, c))))
      (trace (m (g, c))).
Proof.
  intros H. unfold AsyncClient.on_rate_limit_context. cbn [fst snd]. rewrite H.
  now destruct (m (g, c)) as [o [g' c'] tr].
Qed.

(** C2, as the code has it.  [_get] first asks the network; with the
    response in hand it calls [adjust_rate_limit] with that response's
    headers, then [limit_request()], and, when that has returned, handles
    the response. *)
Theorem get_call_order (cl : AsyncClient.t) (c : Clock) (endpoint : string)
    (params : option string) (g : RateLimitContext.t) (resp : Response) :
  AsyncClient._rate_limit_context cl = Some g ->
  session_send GET (get_url cl endpoint params) = Return resp ->
  let ra := adjust_rate_limit (headers resp) (g, c) in
  out ra = Return tt ->
  let rl := RateLimitContext.limit_request 1 (final ra) in
  out rl = Return tt ->
  let rh := AsyncClient._handle resp
              ({| AsyncClient.base_url := AsyncClient.base_url cl;
                  AsyncClient._rate_limit_context := Some (fst (final rl)) |},
               snd (final rl)) in
  let r := AsyncClient._get endpoint params (cl, c) in
  out r = out rh /\
  final r = final rh /\
  trace r =
    ([EvSession GET (get_url cl endpoint params);
      EvAdjustRateLimit (headers resp)] ++ trace ra ++
     [EvLimitRequest 1] ++ trace rl ++ [EvLimitRequestDone] ++ trace rh)%list.
Proof.
  intros Hctx Hnet ra Hra rl Hrl rh r. subst r.
  unfold AsyncClient._get.
  rewrite (bind_return _ _ _ (cl, c) cl []) by reflexivity.
  cbn [out final trace app]. rewrite get_url_eq.
  assert (Hs : AsyncClient.session GET (get_url cl endpoint params) (cl, c) =
               Run (Return resp) (cl, c) [EvSession GET (get_url cl endpoint params)]).
  { unfold AsyncClient.session. rewrite bind_unfold. cbn [emit]. now rewrite Hnet. }
  rewrite (bind_return _ _ _ _ _ _ Hs). cbn [out final trace].
  (* adjust_rate_limit *)
  assert (Ha : AsyncClient.on_rate_limit_context "adjust_rate_limit"
                 (emit (EvAdjustRateLimit (headers resp));;;
                  adjust_rate_limit (headers resp)) (cl, c) =
               Run (Return tt)
                 ({| AsyncClient.base_url := AsyncClient.base_url cl;
                     AsyncClient._rate_limit_context := Some (fst (final ra)) |},
                  snd (final ra))
                 (EvAdjustRateLimit (headers resp) :: trace ra)).
  { rewrite (on_rate_limit_context_return _ _ cl c g Hctx).
    rewrite bind_unfold. cbn [emit]. fold ra.
    destruct ra as [oa sa tra]. cbn in Hra. subst oa. reflexivity. }
  rewrite (bind_return _ _ _ _ _ _ Ha). cbn [out final trace].
  (* limit_request *)
  set (cl1 := {| AsyncClient.base_url := AsyncClient.base_url cl;
                 AsyncClient._rate_limit_context := Some (fst (final ra)) |}).
  assert (Hl : AsyncClient.on_rate_limit_context "limit_request"
                 (emit (EvLimitRequest 1);;;
                  RateLimitContext.limit_request 1;;;
                  emit EvLimitRequestDone) (cl1, snd (final ra)) =
               Run (Return tt)
                 ({| AsyncClient.base_url := AsyncClient.base_url cl;
                     AsyncClient._rate_limit_context := Some (fst (final rl)) |},
                  snd (final rl))
                 (EvLimitRequest 1 :: trace rl ++ [EvLimitRequestDone])).
  { rewrite (on_rate_limit_context_return _ _ cl1 _ (fst (final ra)) eq_refl).
    rewrite bind_unfold. cbn [emit]. rewrite bind_unfold.
    replace (fst (final ra), snd (final ra)) with (final ra) by now destruct (final ra).
    fold rl. destruct rl as [ol sl trl]. cbn in Hrl. subst ol. reflexivity. }
  rewrite (bind_return _ _ _ _ _ _ Hl). cbn [out final trace].
  fold rh. repeat split. cbn. now rewrite <- app_assoc.
Qed.

End ClientFacts.

(** C2, as specified, fails: on a client with the gate [RateLimitContext(2,
    1)] and a server that answers, the session is called before
    [limit_request] is even entered. *)
Lemma get_calls_network_before_gate :
  ~ (forall (httpx : Httpx) (limiter : Limiter) (endpoint : string)
            (params : option string) (s : AsyncClient.St),
       gate_before_network (trace (AsyncClient._get endpoint params s))).
Proof.
  intros H.
  specialize (H (httpx_echo 200) base_limiter "/book" None client21
                [] [EvAdjustRateLimit [("x-ratelimit-remaining", "1")];
                    EvLimitRequest 1; EvLimitRequestDone]
                GET "https://api.example/book" eq_refl).
  exact H.
Qed.

Lemma get_call_order_witness :
  trace (AsyncClient._get (httpx := httpx_echo 404) (limiter := base_limiter)
           "/book" (Some "symbol=BTC") client21) =
  [EvSession GET "https://api.example/book?symbol=BTC";
   EvAdjustRateLimit [("x-ratelimit-remaining", "1")];
   EvLimitRequest 1; EvLimitRequestDone;
   EvLog ERROR "HTTP httpx.Response Error: {} {}" [ArgZ 404; ArgStr "body"]].
Proof.
  destruct (get_call_order (httpx := httpx_echo 404) (limiter := base_limiter)
              (fst client21) (snd client21) "/book" (Some "symbol=BTC")
              (fst gate21)
              {| status_code := 404; text := "body";
                 headers := [("x-ratelimit-remaining", "1")] |})
    as (_ & _ & Htr); [reflexivity .. | exact Htr].
Defined.


(** ** [copy.deepcopy] *)

Lemma covered_mono (m m' : gmap loc loc) (v : val) :
  m ⊆ m' -> covered m v -> covered m' v.
Proof.
  intros Hsub. destruct v as [| | | | l]; cbn; try done.
  intros [l' Hl]. exists l'. by eapply lookup_weaken.
Qed.

Lemma rename_mono (m m' : gmap loc loc) (v : val) :
  m ⊆ m' -> covered m v -> rename m' v = rename m v.
Proof.
  intros Hsub. destruct v as [| | | | l]; cbn; try done.
  intros [l' Hl]. by rewrite Hl, (lookup_weaken _ _ _ _ Hl Hsub).
Qed.

Lemma rename_all_mono (m m' : gmap loc loc) (vs : list val) :
  m ⊆ m' -> Forall (covered m) vs -> rename m' <$> vs = rename m <$> vs.
Proof.
  intros Hsub Hcov. apply Forall_fmap_ext. eapply Forall_impl; [exact Hcov |].
  intros v Hv. by apply rename_mono.
Qed.

Lemma fields_rebuild (o : obj) (ys : list val) :
  length ys = length (fields o) -> fields (rebuild o ys) = ys.
Proof.
  destruct o as [xs | kvs]; cbn; [done |].
  rewrite length_fmap. intros Hlen.
  apply snd_zip. rewrite length_fmap. lia.
Qed.

Lemma node_rebuild (o : obj) (ys : list val) (ts : list tree) :
  length ys = length (fields o) -> node (rebuild o ys) ts = node o ts.
Proof.
  destruct o as [xs | kvs]; cbn; [done |].
  rewrite length_fmap. intros Hlen. f_equal. f_equal.
  apply fst_zip. rewrite length_fmap. lia.
Qed.

Section Deepcopy.
Variable h0 : heap.
Hypothesis h0_wf : heap_wf h0.

Lemma memo_size_lt (pending : loc -> Prop) (h : heap) (m : gmap loc loc) (l : loc) :
  copying h0 pending h m -> l < length h0 -> m !! l = None -> size m < length h0.
Proof.
  intros Hc Hl Hm.
  assert (Hdom : dom (<[l := 0]> m) ⊆ (set_seq 0 (length h0) : gset nat)).
  { intros k Hk. apply elem_of_dom in Hk as [k' Hk'].
    apply elem_of_set_seq. split; [lia |].
    destruct (decide (l = k)) as [<- | Hne]; [cbn; lia |].
    rewrite lookup_insert_ne in Hk' by done.
    cbn. by apply (copying_range _ _ _ _ Hc k k'). }
  apply subseteq_size in Hdom.
  rewrite size_dom, size_set_seq, map_size_insert_None in Hdom by done.
  exact Hdom.
Qed.

Lemma copied_refl (pending : loc -> Prop) (h : heap) (m : gmap loc loc) :
  copying h0 pending h m -> copied h0 pending h m h m.
Proof.
  intros Hc. split; [done | done | done |].
  intros l l' H1 H2. congruence.
Qed.

Lemma copied_trans (pending : loc -> Prop) (h h1 h2 : heap) (m m1 m2 : gmap loc loc) :
  copied h0 pending h m h1 m1 -> copied h0 pending h1 m1 h2 m2 ->
  copied h0 pending h m h2 m2.
Proof.
  intros [_ Hs1 Hl1 Hn1] [Hc2 Hs2 Hl2 Hn2]. split.
  - done.
  - by transitivity m1.
  - lia.
  - intros l l' Hl' Hnone.
    destruct (m1 !! l) as [k |] eqn:E.
    + rewrite (lookup_weaken _ _ _ _ E Hs2) in Hl'. injection Hl' as <-.
      by apply (Hn1 l k).
    + specialize (Hn2 l l' Hl' E). lia.
Qed.

Lemma copy_all_ok (fuel : nat)
    (rec : val -> heap -> gmap loc loc -> option (val * heap * gmap loc loc)) :
  copier h0 fuel rec ->
  forall (xs : list val) (pending : loc -> Prop) (h : heap) (m : gmap loc loc),
    copying h0 pending h m -> Forall (val_ok (length h0)) xs ->
    length h0 <= size m + fuel ->
    exists ys h' m',
      copy_all rec xs h m = Some (ys, h', m') /\ copied h0 pending h m h' m' /\
      Forall (covered m') xs /\ ys = rename m' <$> xs.
Proof.
  intros Hrec xs. induction xs as [| x xs IH]; intros pending h m Hc Hok Hfuel.
  - exists [], h, m. cbn. split; [done |]. split; [by apply copied_refl |]. by split.
  - apply Forall_cons in Hok as [Hx Hxs].
    destruct (Hrec pending x h m Hc Hx Hfuel) as (y & h1 & m1 & Hy & Hcp1 & Hcov1 & ->).
    assert (Hfuel1 : length h0 <= size m1 + fuel).
    { pose proof (map_subseteq_size _ _ (copied_memo _ _ _ _ _ _ Hcp1)). lia. }
    destruct (IH pending h1 m1 (copied_state _ _ _ _ _ _ Hcp1) Hxs Hfuel1)
      as (ys & h2 & m2 & Hys & Hcp2 & Hcov2 & ->).
    exists (rename m1 x :: (rename m2 <$> xs)), h2, m2.
    cbn. rewrite Hy, Hys. split; [done |].
    split; [by eapply copied_trans |].
    pose proof (copied_memo _ _ _ _ _ _ Hcp2) as Hsub.
    split; [apply Forall_cons; split; [by eapply covered_mono | done] |].
    by rewrite (rename_mono m1 m2 x Hsub Hcov1).
Qed.

Lemma copying_alloc (pending : loc -> Prop) (h : heap) (m : gmap loc loc)
    (l : loc) (o : obj) :
  copying h0 pending h m -> l < length h0 -> m !! l = None ->
  copying h0 (fun k => pending k \/ k = l) (h ++ [o]) (<[l := length h]> m).
Proof.
  intros Hc Hl Hm.
  pose proof (copying_length _ _ _ _ Hc) as Hlen.
  assert (Hsub : m ⊆ <[l := length h]> m) by by apply insert_subseteq.
  split.
  - rewrite length_app. lia.
  - intros k ok Hk. apply lookup_app_l_Some. by apply (copying_old _ _ _ _ Hc).
  - intros k k' Hk. rewrite length_app. cbn.
    destruct (decide (l = k)) as [<- | Hne].
    + rewrite lookup_insert_eq in Hk. injection Hk as <-. lia.
    + rewrite lookup_insert_ne in Hk by done.
      destruct (copying_range _ _ _ _ Hc k k' Hk). lia.
  - intros k k' Hk Hnp.
    assert (Hne : l <> k) by (intros ->; apply Hnp; by right).
    rewrite lookup_insert_ne in Hk by done.
    destruct (copying_done _ _ _ _ Hc k k' Hk) as (ok & Hok & Hcov & Hh).
    { intros Hp. apply Hnp. by left. }
    exists ok. split; [done |]. split.
    + eapply Forall_impl; [exact Hcov |]. intros v. by apply covered_mono.
    + rewrite (rename_all_mono _ _ _ Hsub Hcov). by apply lookup_app_l_Some.
Qed.

Lemma copying_fill (pending : loc -> Prop) (h h2 : heap) (m m2 : gmap loc loc)
    (l : loc) (o o1 : obj) :
  copying h0 pending h m -> h0 !! l = Some o -> m !! l = None ->
  copied h0 (fun k => pending k \/ k = l) (h ++ [o1]) (<[l := length h]> m) h2 m2 ->
  Forall (covered m2) (fields o) ->
  copied h0 pending h m
    (<[length h := rebuild o (rename m2 <$> fields o)]> h2) m2.
Proof.
  intros Hc Ho Hm [Hc2 Hsub2 Hlen2 Hnew2] Hcov.
  pose proof (copying_length _ _ _ _ Hc) as Hlen.
  rewrite length_app in Hlen2. cbn in Hlen2.
  assert (Hsub : m ⊆ <[l := length h]> m) by by apply insert_subseteq.
  assert (Hl2 : m2 !! l = Some (length h)).
  { eapply lookup_weaken; [| exact Hsub2]. apply lookup_insert_eq. }
  split; [split | | |].
  - rewrite length_insert. apply (copying_length _ _ _ _ Hc2).
  - intros k ok Hk. rewrite list_lookup_insert_ne.
    + by apply (copying_old _ _ _ _ Hc2).
    + apply lookup_lt_Some in Hk. lia.
  - intros k k' Hk. rewrite length_insert. by apply (copying_range _ _ _ _ Hc2).
  - intros k k' Hk Hnp. destruct (decide (k = l)) as [-> | Hne].
    + rewrite Hl2 in Hk. injection Hk as <-.
      exists o. split; [done |]. split; [done |].
      apply list_lookup_insert_eq. lia.
    + destruct (copying_done _ _ _ _ Hc2 k k' Hk) as (ok & Hok & Hcovk & Hh).
      { intros [Hp | ->]; [by apply Hnp | done]. }
      exists ok. split; [done |]. split; [done |].
      rewrite list_lookup_insert_ne; [done |].
      destruct (m !! k) as [k'' |] eqn:E.
      * pose proof (lookup_weaken _ _ _ _ E (transitivity Hsub Hsub2)) as Hk2.
        rewrite Hk in Hk2. injection Hk2 as ->.
        destruct (copying_range _ _ _ _ Hc k k'' E). lia.
      * assert (Hk1 : <[l := length h]> m !! k = None)
          by (rewrite lookup_insert_ne; done).
        specialize (Hnew2 k k' Hk Hk1). rewrite length_app in Hnew2.
        cbn in Hnew2. lia.
  - by transitivity (<[l := length h]> m).
  - rewrite length_insert. lia.
  - intros k k' Hk Hnone. destruct (decide (k = l)) as [-> | Hne].
    + rewrite Hl2 in Hk. injection Hk as <-. lia.
    + assert (Hk1 : <[l := length h]> m !! k = None)
        by (rewrite lookup_insert_ne; done).
      specialize (Hnew2 k k' Hk Hk1). rewrite length_app in Hnew2. lia.
Qed.

(** [deepcopy_memo] copies, given fuel for the objects left to copy. *)
Lemma deepcopy_memo_ok (fuel : nat) : copier h0 fuel (deepcopy_memo fuel).
Proof.
  induction fuel as [| fuel IH]; intros pending x h m Hc Hx Hfuel;
    (destruct x as [| b | z | s | l];
     [ eexists _, h, m; (split; [reflexivity |]); split; [by apply copied_refl | done] .. | ]);
    cbn [deepcopy_memo]; destruct (m !! l) as [y |] eqn:E.
  - exists (VRef y), h, m. split; [done |]. split; [by apply copied_refl |].
    cbn. rewrite E. by split.
  - pose proof (memo_size_lt pending h m l Hc Hx E). lia.
  - exists (VRef y), h, m. split; [done |]. split; [by apply copied_refl |].
    cbn. rewrite E. by split.
  - destruct (lookup_lt_is_Some_2 h0 l Hx) as [o Ho].
    rewrite (copying_old _ _ _ _ Hc l o Ho).
    pose proof (copying_alloc pending h m l (rebuild o []) Hc Hx E) as Hc1.
    assert (Hfuel1 : length h0 <= size (<[l := length h]> m) + fuel).
    { rewrite map_size_insert_None by done. lia. }
    destruct (copy_all_ok fuel _ IH (fields o) _ _ _ Hc1 (h0_wf l o Ho) Hfuel1)
      as (ys & h2 & m2 & Hys & Hcp & Hcov & ->).
    rewrite Hys.
    exists (VRef (length h)),
      (<[length h := rebuild o (rename m2 <$> fields o)]> h2), m2.
    split; [done |]. split; [by eapply copying_fill |].
    assert (Hl2 : m2 !! l = Some (length h)).
    { eapply lookup_weaken; [| exact (copied_memo _ _ _ _ _ _ Hcp)].
      apply lookup_insert_eq. }
    cbn. rewrite Hl2. by split.
Qed.

Lemma copying_start (pending : loc -> Prop) : copying h0 pending h0 ∅.
Proof. split; [done | done | |]; intros l l' Hl; by rewrite lookup_empty in Hl. Qed.

(** [deepcopy] returns, on a well-formed heap; what it returns is the value
    renamed by a memo under which every copy is complete. *)
Lemma deepcopy_ok (x : val) :
  val_ok (length h0) x ->
  exists y h' m,
    deepcopy x h0 = Some (y, h') /\
    copying h0 (fun _ => False) h' m /\ covered m x /\ y = rename m x.
Proof.
  intros Hx.
  destruct (deepcopy_memo_ok (S (length h0)) (fun _ => False) x h0 ∅
              (copying_start _) Hx) as (y & h' & m & Hy & Hcp & Hcov & ->).
  { rewrite map_size_empty. lia. }
  exists (rename m x), h', m. unfold deepcopy. rewrite Hy.
  split; [done |]. split; [apply Hcp | done].
Qed.

(** A complete copy has the structure of the original, at every depth. *)
Lemma view_copy (h' : heap) (m : gmap loc loc) :
  copying h0 (fun _ => False) h' m ->
  forall (depth : nat) (v : val),
    covered m v -> view depth h' (rename m v) = view depth h0 v.
Proof.
  intros Hc depth. induction depth as [| depth IH]; intros v Hcov;
    (destruct v as [| b | z | s | l]; [done .. |]);
    destruct Hcov as [l' Hl]; cbn [rename]; rewrite Hl; [done |].
  destruct (copying_done _ _ _ _ Hc l l' Hl) as (o & Ho & Hcovo & Hh'); [tauto |].
  cbn [view]. rewrite Ho, Hh'.
  assert (Hlen : length (rename m <$> fields o) = length (fields o))
    by apply length_fmap.
  rewrite (fields_rebuild _ _ Hlen).
  assert (Hm : mapM (view depth h') (rename m <$> fields o) =
               mapM (view depth h0) (fields o)).
  { apply Forall2_mapM_ext, Forall2_fmap_l, Forall_Forall2_diag.
    eapply Forall_impl; [exact Hcovo |]. intros v Hv. by apply IH. }
  rewrite Hm. destruct (mapM (view depth h0) (fields o)) as [ts |]; [| reflexivity].
  by rewrite (node_rebuild _ _ _ Hlen).
Qed.

(** A heap that keeps the original objects shows the original values
    unchanged. *)
Lemma view_old (h' : heap) :
  (forall l o, h0 !! l = Some o -> h' !! l = Some o) ->
  forall (depth : nat) (v : val),
    val_ok (length h0) v -> view depth h' v = view depth h0 v.
Proof.
  intros Hold depth. induction depth as [| depth IH]; intros v Hv;
    (destruct v as [| b | z | s | l]; [done .. |]); [done |].
  destruct (lookup_lt_is_Some_2 h0 l Hv) as [o Ho].
  cbn [view]. rewrite Ho, (Hold l o Ho).
  assert (Hm : mapM (view depth h') (fields o) = mapM (view depth h0) (fields o)).
  { apply Forall_mapM_ext. eapply Forall_impl; [exact (h0_wf l o Ho) |].
    intros v Hv'. by apply IH. }
  by rewrite Hm.
Qed.

(** Everything reachable from a complete copy was allocated by the copy. *)
Lemma reach_copy_new (h' : heap) (m : gmap loc loc) :
  copying h0 (fun _ => False) h' m ->
  forall (u : val) (k : loc),
    reach h' u k -> forall v, u = rename m v -> covered m v -> length h0 <= k.
Proof.
  intros Hc u k Hr. induction Hr as [l | l o u k Ho Hin Hr IH]; intros v Hu Hcov.
  - destruct v as [| b | z | s | l0]; try discriminate.
    destruct Hcov as [l' Hl]. cbn in Hu. rewrite Hl in Hu. injection Hu as ->.
    destruct (copying_range _ _ _ _ Hc l0 l' Hl) as [_ [Hge _]]. exact Hge.
  - destruct v as [| b | z | s | l0]; try discriminate.
    destruct Hcov as [l' Hl]. cbn in Hu. rewrite Hl in Hu. injection Hu as ->.
    destruct (copying_done _ _ _ _ Hc l0 l' Hl) as (o0 & Ho0 & Hcov0 & Hh'); [tauto |].
    rewrite Hh' in Ho. injection Ho as <-.
    rewrite fields_rebuild in Hin by apply length_fmap.
    apply list_elem_of_fmap in Hin as (u0 & -> & Hin0).
    apply (IH u0); [done |].
    rewrite Forall_forall in Hcov0. by apply Hcov0.
Qed.

(** Everything reachable from an original value is an original object. *)
Lemma reach_old (h' : heap) :
  (forall l o, h0 !! l = Some o -> h' !! l = Some o) ->
  forall (v : val) (k : loc),
    reach h' v k -> val_ok (length h0) v -> k < length h0.
Proof.
  intros Hold v k Hr. induction Hr as [l | l o u k Ho Hin Hr IH]; intros Hv; [done |].
  destruct (lookup_lt_is_Some_2 h0 l Hv) as [o0 Ho0].
  rewrite (Hold l o0 Ho0) in Ho. injection Ho as <-.
  apply IH. pose proof (h0_wf l o0 Ho0) as Hwf.
  rewrite Forall_forall in Hwf. by apply Hwf.
Qed.

End Deepcopy.

(** As in Python: a list that holds itself is copied to a list that holds
    itself, and a list that holds one object twice to a list that holds one
    (new) object twice. *)
Example deepcopy_cycle :
  deepcopy (VRef 0) [OList [VRef 0]] =
  Some (VRef 1, [OList [VRef 0]; OList [VRef 1]]).
Proof. reflexivity. Qed.

Example deepcopy_sharing :
  deepcopy (VRef 1) [ODict [("k", VInt 1)]; OList [VRef 0; VRef 0]] =
  Some (VRef 2, [ODict [("k", VInt 1)]; OList [VRef 0; VRef 0];
                 OList [VRef 3; VRef 3]; ODict [("k", VInt 1)]]).
Proof. reflexivity. Qed.

(** ** Requestor *)

Section RequestorFacts.
Context {endpoint : Endpoint}.

Lemma for_each_logs (rq : Requestor.t) (w : World) (ps : list string) :
  Requestor.for_each (fun p =>
      if negb (Requestor.has_param rq p)
      then emit (RqLog ERROR "Missing required param: {}" [p])
      else ret tt) ps (rq, w) =
  Run (Return tt) (rq, w)
      (map (fun p => RqLog ERROR "Missing required param: {}" [p])
         (filter (fun p => negb (Requestor.has_param rq p)) ps)).
Proof.
  induction ps as [| p ps IH]; [reflexivity |].
  cbn [Requestor.for_each]. unfold bind at 1. rewrite filter_cons.
  destruct (Requestor.has_param rq p); cbn [negb emit ret]; rewrite IH; reflexivity.
Qed.

Lemma has_required_params_run (rq : Requestor.t) (w : World) :
  Requestor.__has_required_params (rq, w) =
  Run (Return (forallb (Requestor.has_param rq) (Requestor.__required_params rq)))
      (rq, w) (missing_logs rq).
Proof.
  unfold Requestor.__has_required_params.
  rewrite (bind_return _ _ _ (rq, w) rq []) by reflexivity.
  rewrite (bind_return _ _ _ (rq, w) tt (missing_logs rq)) by apply for_each_logs.
  cbn. now rewrite app_nil_r.
Qed.


Lemma forallb_has_param_false (rq : Requestor.t) :
  (exists p, p ∈ Requestor.__required_params rq /\ Requestor.params rq !! p = None) ->
  forallb (Requestor.has_param rq) (Requestor.__required_params rq) = false.
Proof.
  intros (p & Hin & Hp). apply not_true_is_false. intros H.
  rewrite forallb_forall in H. apply list_elem_of_In in Hin.
  specialize (H p Hin). unfold Requestor.has_param in H. now rewrite Hp in H.
Qed.

Lemma forallb_has_param_true (rq : Requestor.t) :
  (forall p, p ∈ Requestor.__required_params rq -> is_Some (Requestor.params rq !! p)) ->
  forallb (Requestor.has_param rq) (Requestor.__required_params rq) = true.
Proof.
  intros H. apply forallb_forall. intros p Hin. apply list_elem_of_In in Hin.
  destruct (H p Hin) as [v Hv]. unfold Requestor.has_param. now rewrite Hv.
Qed.

Lemma missing_logs_are_logs (rq : Requestor.t) : Forall is_log (missing_logs rq).
Proof. unfold missing_logs. apply Forall_map, Forall_forall. now intros. Qed.

Lemma await_cases (task : nat) (s : Requestor.St) :
  let r := Requestor.await task s in
  (out r = Return tt \/ out r = Raise reuse_error) /\
  fst (final r) = fst s /\
  objects (snd (final r)) = objects (snd s) /\
  exists tr, trace r = RqAwait task :: tr.
Proof.
  destruct s as [rq w]. unfold Requestor.await. cbn.
  destruct (coroutines w !! task) as [co |]; cbn.
  - destruct (co_awaited co); cbn; eauto 10.
  - eauto 10.
Qed.

Lemma for_each_await_cases (tasks : list nat) (s : Requestor.St) :
  let r := Requestor.for_each Requestor.await tasks s in
  (out r = Return tt \/ out r = Raise reuse_error) /\
  fst (final r) = fst s /\
  objects (snd (final r)) = objects (snd s).
Proof.
  revert s. induction tasks as [| task tasks IH]; intros s; cbn zeta.
  - cbn. auto.
  - cbn [Requestor.for_each]. rewrite bind_unfold.
    destruct (await_cases task s) as ([Ho | Ho] & Hs & Hh & _).
    + destruct (Requestor.await task s) as [o s1 tr1]. cbn in Ho, Hs, Hh. subst o.
      destruct (IH s1) as (Ho' & Hs' & Hh').
      destruct (Requestor.for_each Requestor.await tasks s1) as [o2 s2 tr2].
      cbn in *. repeat split; congruence || (destruct Ho'; auto).
    + destruct (Requestor.await task s) as [o s1 tr1]. cbn in Ho, Hs, Hh. subst o.
      cbn. auto.
Qed.

Lemma fetch_encoded_cases (ns : string) (ps : gmap string string) (sv : bool)
    (s : Requestor.St) :
  let r := Requestor.fetch_encoded ns ps sv s in
  (exists v, out r = Return v) /\
  fst (final r) = fst s /\
  coroutines (snd (final r)) = coroutines (snd s).
Proof.
  destruct s as [rq w]. unfold Requestor.fetch_encoded. cbn.
  destruct (db w !! (ns, ps)) as [v |]; cbn; [eauto |].
  destruct (_request_func ps (objects w)) as [v h]. cbn. eauto.
Qed.

(** C4.  With a required parameter missing, [request()] raises
    [RuntimeError("Required params not set")] having only logged: the
    state is untouched and the trace holds no await, no cache call and no
    transport call.  With every required parameter present it never raises
    that error. *)
Theorem request_checks_params_first (rq : Requestor.t) (w : World) :
  let r := Requestor.request (rq, w) in
  let config_error := Exn RuntimeError "Required params not set" in
  ((exists p, p ∈ Requestor.__required_params rq /\
              Requestor.params rq !! p = None) ->
   out r = Raise config_error /\
   final r = (rq, w) /\
   trace r = missing_logs rq /\
   Forall is_log (trace r)) /\
  ((forall p, p ∈ Requestor.__required_params rq ->
              is_Some (Requestor.params rq !! p)) ->
   out r <> Raise config_error).
Proof.
  intros r config_error. subst r. unfold Requestor.request. split.
  - intros Hmiss. apply forallb_has_param_false in Hmiss.
    rewrite (bind_return _ _ _ _ _ _ (has_required_params_run rq w)).
    rewrite Hmiss. cbn. rewrite app_nil_r.
    repeat split. apply missing_logs_are_logs.
  - intros Hall. apply forallb_has_param_true in Hall.
    rewrite (bind_return _ _ _ _ _ _ (has_required_params_run rq w)).
    rewrite Hall. cbn [negb out].
    rewrite (bind_return _ _ _ (rq, w) rq []) by reflexivity. cbn [out].
    rewrite bind_unfold.
    set (pre := match Requestor.__async_tasks rq with
                | [] => ret tt
                | _ :: _ => Requestor.for_each Requestor.await (Requestor.__async_tasks rq)
                end).
    assert (Hpre : (out (pre (rq, w)) = Return tt \/ out (pre (rq, w)) = Raise reuse_error)
                   /\ fst (final (pre (rq, w))) = rq).
    { unfold pre. destruct (Requestor.__async_tasks rq) eqn:E.
      - cbn. auto.
      - destruct (for_each_await_cases (n :: l) (rq, w)) as (H1 & H2 & _). auto. }
    destruct (pre (rq, w)) as [o1 [rq1 w1] tr1]. cbn in Hpre.
    destruct Hpre as [[-> | ->] ->]; [| discriminate].
    rewrite (bind_return _ _ _ (rq, w1) rq []) by reflexivity. cbn [out].
    rewrite bind_unfold.
    destruct (fetch_encoded_cases (Requestor.namespace rq) (Requestor.params rq)
                (Requestor._save rq) (rq, w1)) as ([v Hv] & Hs & _).
    destruct (Requestor.fetch_encoded _ _ _ _) as [o2 [rq2 w2] tr2].
    cbn in Hv, Hs. subst o2 rq2.
    rewrite (bind_return _ _ _ (rq, w2) w2 []) by reflexivity. cbn [out].
    destruct (negb (truthy (objects w2) v)); [| discriminate].
    destruct (deepcopy _ _) as [[y h] |]; cbn; discriminate.
Qed.


Lemma request_keeps_self (rq : Requestor.t) (w : World) :
  fst (final (Requestor.request (rq, w))) = rq.
Proof.
  unfold Requestor.request.
  rewrite (bind_return _ _ _ _ _ _ (has_required_params_run rq w)).
  destruct (forallb _ _); cbn [negb final]; [| reflexivity].
  rewrite (bind_return _ _ _ (rq, w) rq []) by reflexivity. cbn [final].
  rewrite bind_unfold.
  set (pre := match Requestor.__async_tasks rq with
              | [] => ret tt
              | _ :: _ => Requestor.for_each Requestor.await (Requestor.__async_tasks rq)
              end).
  assert (Hpre : fst (final (pre (rq, w))) = rq).
  { unfold pre. destruct (Requestor.__async_tasks rq) eqn:E; [reflexivity |].
    apply (for_each_await_cases (n :: l) (rq, w)). }
  destruct (pre (rq, w)) as [o1 [rq1 w1] tr1]. cbn in Hpre. subst rq1.
  destruct o1 as [[] | e |]; [| reflexivity | reflexivity].
  rewrite (bind_return _ _ _ (rq, w1) rq []) by reflexivity. cbn [final].
  rewrite bind_unfold.
  destruct (fetch_encoded_cases (Requestor.namespace rq) (Requestor.params rq)
              (Requestor._save rq) (rq, w1)) as ([v Hv] & Hs & _).
  destruct (Requestor.fetch_encoded _ _ _ _) as [o2 [rq2 w2] tr2].
  cbn in Hv, Hs. subst o2 rq2.
  rewrite (bind_return _ _ _ (rq, w2) w2 []) by reflexivity. cbn [final].
  destruct (negb (truthy (objects w2) v)); [| reflexivity].
  destruct (deepcopy _ _) as [[y h] |]; reflexivity.
Qed.

(** [request()] awaits the queued pre-tasks and leaves the queue as it
    was. *)
Lemma request_keeps_tasks (rq : Requestor.t) (w : World) :
  Requestor.__async_tasks (fst (final (Requestor.request (rq, w)))) =
  Requestor.__async_tasks rq.
Proof. now rewrite request_keeps_self. Qed.


(** [request()] step by step. *)
Lemma request_unfold (rq : Requestor.t) (w : World) :
  Requestor.request (rq, w) =
    if forallb (Requestor.has_param rq) (Requestor.__required_params rq) then
      match await_tasks rq (rq, w) with
      | Run (Return _) s1 tr1 =>
          match Requestor.fetch_encoded (Requestor.namespace rq)
                  (Requestor.params rq) (Requestor._save rq) (rq, snd s1) with
          | Run (Return resp) s2 tr2 =>
              answer rq resp (snd s2) (missing_logs rq ++ tr1 ++ tr2)
          | Run (Raise e) s2 tr2 =>
              Run (Raise e) s2 (missing_logs rq ++ tr1 ++ tr2)
          | Run Blocked s2 tr2 => Run Blocked s2 (missing_logs rq ++ tr1 ++ tr2)
          end
      | Run (Raise e) s1 tr1 => Run (Raise e) s1 (missing_logs rq ++ tr1)
      | Run Blocked s1 tr1 => Run Blocked s1 (missing_logs rq ++ tr1)
      end
    else Run (Raise (Exn RuntimeError "Required params not set")) (rq, w)
             (missing_logs rq).
Proof.
  unfold Requestor.request.
  rewrite (bind_return _ _ _ _ _ _ (has_required_params_run rq w)).
  destruct (forallb _ _); cbn [negb]; [| cbn; now rewrite app_nil_r].
  rewrite (bind_return _ _ _ (rq, w) rq []) by reflexivity.
  cbn [out final trace app]. rewrite bind_unfold. fold (await_tasks rq).
  assert (Hpre : fst (final (await_tasks rq (rq, w))) = rq).
  { unfold await_tasks. destruct (Requestor.__async_tasks rq) eqn:E; [reflexivity |].
    apply (for_each_await_cases (n :: l) (rq, w)). }
  destruct (await_tasks rq (rq, w)) as [o1 [rq1 w1] tr1]. cbn in Hpre. subst rq1.
  destruct o1 as [[] | e |]; cbn [out final trace snd]; [| reflexivity | reflexivity].
  rewrite (bind_return _ _ _ (rq, w1) rq []) by reflexivity.
  cbn [out final trace app]. rewrite bind_unfold.
  destruct (fetch_encoded_cases (Requestor.namespace rq) (Requestor.params rq)
              (Requestor._save rq) (rq, w1)) as ([v Hv] & Hs & _).
  destruct (Requestor.fetch_encoded _ _ _ _) as [o2 [rq2 w2] tr2].
  cbn in Hv, Hs. subst o2 rq2. cbn [snd].
  rewrite (bind_return _ _ _ (rq, w2) w2 []) by reflexivity.
  cbn [out final trace app]. unfold answer.
  destruct (truthy (objects w2) v); cbn [negb].
  - cbn. now rewrite !app_nil_r.
  - destruct (deepcopy _ _) as [[y h] |]; cbn; now rewrite ?app_nil_r.
Qed.


Lemma fetch_encoded_stores (ns : string) (ps : gmap string string)
    (s : Requestor.St) :
  let r := Requestor.fetch_encoded ns ps true s in
  exists v, out r = Return v /\ db (snd (final r)) !! (ns, ps) = Some v.
Proof.
  destruct s as [rq w]. unfold Requestor.fetch_encoded. cbn.
  destruct (db w !! (ns, ps)) as [v |] eqn:E; cbn; [eauto |].
  destruct (_request_func ps (objects w)) as [v h]. cbn.
  exists v. split; [reflexivity | apply lookup_insert_eq].
Qed.

Lemma answer_db (rq : Requestor.t) (resp : val) (w : World) (tr : list rq_event) :
  db (snd (final (answer rq resp w tr))) = db w /\
  fst (final (answer rq resp w tr)) = rq.
Proof.
  unfold answer. destruct (truthy _ _); [now split |].
  destruct (deepcopy _ _) as [[y h] |]; now split.
Qed.

Lemma request_only_hit (rq : Requestor.t) (w : World) (stored : val) :
  db w !! (Requestor.namespace rq, Requestor.params rq) = Some stored ->
  Requestor.request_only (rq, w) =
  Run (Return VNone) (rq, w)
      [RqContains (Requestor.namespace rq) (Requestor.params rq)].
Proof.
  intros H. unfold Requestor.request_only, Requestor.contains_encoded.
  cbn. now rewrite H.
Qed.

(** C7, as the code has it.  After a [request()] with saving enabled has
    returned, the store holds an entry for (namespace, params); a following
    [request_only()] with the same parameters asks the store whether the
    entry is there and returns [None]: it fetches nothing, calls no
    transport, and leaves the requestor and the world, the stored value
    included, as they were. *)
Theorem request_only_after_saved_request (rq : Requestor.t) (w : World) (v1 : val) :
  Requestor._save rq = true ->
  out (Requestor.request (rq, w)) = Return v1 ->
  let s1 := final (Requestor.request (rq, w)) in
  let r2 := Requestor.request_only s1 in
  exists stored : val,
    db (snd s1) !! (Requestor.namespace rq, Requestor.params rq) = Some stored /\
    out r2 = Return VNone /\
    trace r2 = [RqContains (Requestor.namespace rq) (Requestor.params rq)] /\
    final r2 = s1.
Proof.
  intros Hsave Hout s1 r2.
  assert (Hdb : exists stored,
             db (snd s1) !! (Requestor.namespace rq, Requestor.params rq) = Some stored
             /\ fst s1 = rq).
  { subst s1. revert Hout. rewrite request_unfold.
    destruct (forallb _ _); [| discriminate].
    destruct (await_tasks rq (rq, w)) as [o1 s1' tr1].
    destruct o1 as [[] | e |]; [| discriminate | discriminate].
    rewrite Hsave.
    destruct (fetch_encoded_stores (Requestor.namespace rq) (Requestor.params rq)
                (rq, snd s1')) as (v & Hv & Hst).
    destruct (Requestor.fetch_encoded _ _ _ _) as [o2 s2 tr2].
    cbn in Hv, Hst. subst o2. intros _.
    destruct (answer_db rq v (snd s2) (missing_logs rq ++ tr1 ++ tr2)) as [Hd Hs].
    exists v. now rewrite Hd. }
  destruct Hdb as (stored & Hst & Hrq). exists stored. split; [exact Hst |].
  subst r2. destruct s1 as [rq1 w1]. cbn in Hst, Hrq. subst rq1.
  now rewrite (request_only_hit rq w1 stored Hst).
Qed.



End RequestorFacts.

(** C6, on the code.  [delete_from_db()] queues one pre-task; the first
    [request()] awaits it and returns, and the queue still holds it; the
    second [request()] on the same instance awaits it again, which Python
    refuses. *)
Lemma second_request_awaits_again :
  let s1 := final (Requestor.delete_from_db (book VNone, world0)) in
  let r1 := Requestor.request (endpoint := endpoint_seven) s1 in
  let r2 := Requestor.request (endpoint := endpoint_seven) (final r1) in
  Requestor.__async_tasks (fst s1) = [0%nat] /\
  out r1 = Return (VInt 7) /\
  Requestor.__async_tasks (fst (final r1)) = [0%nat] /\
  trace r2 = [RqAwait 0] /\
  out r2 = Raise reuse_error.
Proof. vm_compute. repeat split. Qed.

(** C7, as specified, fails: the store holds [7], [request_only()] returns
    [None]. *)
Lemma request_only_returns_no_value :
  ~ (forall (endpoint : Endpoint) (rq : Requestor.t) (w : World) (stored : val),
       Requestor._save rq = true ->
       let s1 := final (Requestor.request (rq, w)) in
       db (snd s1) !! (Requestor.namespace rq, Requestor.params rq) = Some stored ->
       out (Requestor.request_only s1) = Return stored).
Proof.
  intros H.
  specialize (H endpoint_seven (book VNone) world0 (VInt 7) eq_refl).
  cbv zeta in H.
  assert (Hst : db (snd (final (Requestor.request (endpoint := endpoint_seven)
                                  (book VNone, world0))))
                  !! (Requestor.namespace (book VNone), Requestor.params (book VNone))
                = Some (VInt 7)) by (vm_compute; reflexivity).
  specialize (H Hst). vm_compute in H. discriminate H.
Qed.

Lemma request_only_after_saved_request_witness :
  let s1 := final (Requestor.request (endpoint := endpoint_seven) (book VNone, world0)) in
  out (Requestor.request_only (endpoint := endpoint_seven) s1) = Return VNone.
Proof.
  destruct (request_only_after_saved_request (endpoint := endpoint_seven)
              (book VNone) world0 (VInt 7)) as (stored & _ & Ho & _).
  - reflexivity.
  - vm_compute. reflexivity.
  - exact Ho.
Defined.


(** The scenario of the specification: the default is an empty list, the
    transport yields [None]; [request()] returns another empty list, and
    appending to it leaves the default empty. *)
Example request_copies_empty_list_default :
  let r := Requestor.request (endpoint := endpoint_none)
             (book (VRef 0), world_with_empty_list) in
  out r = Return (VRef 1) /\
  objects (snd (final r)) = [OList []; OList []] /\
  view 1 (<[1%nat := OList [VInt 1]]> (objects (snd (final r)))) (VRef 0) =
    Some (TList []).
Proof. vm_compute. repeat split. Qed.

(** * More properties of the code *)

(** ** RateLimitContext *)

(** One run of [_acquire_token], the zero rate included. *)
Lemma acquire_token_run_any (g : t) (c : Clock) (weight : Z) :
  let c1 := tick c in
  let t1 := refilled g (now c1) in
  let w := inject_Z weight in
  _acquire_token weight (g, c) =
    if Qltb t1 w then
      if Qeq_bool (_rate g) 0 then
        Run (Raise (Exn ZeroDivisionError "float division by zero"))
            (with_balance g t1 (now c1), c1) []
      else
        let d := ((w - t1) / _rate g)%Q in
        let c2 := tick (advance d c1) in
        let t2 := refilled (with_balance g t1 (now c1)) (now c2) in
        Run (Return tt) (with_balance g (t2 - w) (now c2), c2)
            [EvLog DEBUG "Sleeping for {} seconds" [ArgQ d]; EvSleep d]
    else
      Run (Return tt) (with_balance g (t1 - w) (now c1), c1) [].
Proof.
  unfold _acquire_token, refilled. cbn.
  destruct (Qltb _ _) eqn:E; cbn; [| reflexivity].
  unfold truediv. destruct (Qeq_bool (_rate g) 0); reflexivity.
Qed.

(** [_acquire_token] neither reads nor writes the semaphore. *)
Lemma acquire_token_permits (g : t) (c : Clock) (weight k : Z) :
  _acquire_token weight (add_permits k (g, c)) =
  Run (out (_acquire_token weight (g, c)))
      (add_permits k (final (_acquire_token weight (g, c))))
      (trace (_acquire_token weight (g, c))).
Proof.
  unfold add_permits at 1. cbn [fst snd].
  rewrite !acquire_token_run_any. cbv zeta. unfold refilled. cbn.
  destruct (Qltb _ _); [destruct (Qeq_bool _ _) |]; reflexivity.
Qed.

(** X1.  With a permit free, [limit_request(weight)] is
    [_acquire_token(weight)], and the semaphore has as many permits after
    it as before, also when the acquisition raises. *)
Theorem limit_request_gives_permit_back (g : t) (c : Clock) (weight : Z) :
  _semaphore g <> 0%Z ->
  let r := limit_request weight (g, c) in
  let ra := _acquire_token weight (g, c) in
  out r = out ra /\
  trace r = trace ra /\
  snd (final r) = snd (final ra) /\
  _tokens (fst (final r)) = _tokens (fst (final ra)) /\
  _last (fst (final r)) = _last (fst (final ra)) /\
  _semaphore (fst (final r)) = _semaphore g.
Proof.
  intros Hs r ra. subst r ra. rewrite limit_request_run.
  destruct (Z.eqb_spec (_semaphore g) 0) as [E | _]; [contradiction |].
  unfold finally. rewrite acquire_token_permits.
  rewrite acquire_token_run_any. cbv zeta.
  destruct (Qltb _ _); [destruct (Qeq_bool _ _) |]; cbn;
    repeat split; lia.
Qed.

Lemma limit_request_gives_permit_back_witness :
  let r := limit_request 1 gate21 in
  out r = Return tt /\ _semaphore (fst (final r)) = 1%Z.
Proof.
  destruct (limit_request_gives_permit_back (fst gate21) (snd gate21) 1)
    as (Ho & _ & _ & _ & _ & Hs).
  - discriminate.
  - split; [exact Ho | exact Hs].
Defined.



(** X3.  On a gate whose rate is zero, an acquisition of more than the
    capacity raises [ZeroDivisionError] when it computes how long to
    sleep: it has refilled, it has not slept and it has debited nothing. *)
Theorem acquire_token_zero_rate_raises (g : t) (c : Clock) (weight : Z) :
  (_rate g == 0)%Q ->
  (_max_calls g < weight)%Z ->
  let r := _acquire_token weight (g, c) in
  out r = Raise (Exn ZeroDivisionError "float division by zero") /\
  trace r = [] /\
  snd (final r) = tick c /\
  _tokens (fst (final r)) = refilled g (now (tick c)) /\
  _last (fst (final r)) = now (tick c).
Proof.
  intros Hr Hw r. subst r. rewrite acquire_token_run_any. cbv zeta.
  assert (H1 : Qltb (refilled g (now (tick c))) (inject_Z weight) = true).
  { apply Qltb_lt.
    pose proof (pymin_le_r (_tokens g + (now (tick c) - _last g) * _rate g)
                  (inject_Z (_max_calls g))) as Hle.
    assert (inject_Z (_max_calls g) < inject_Z weight)%Q by now rewrite <- Zlt_Qlt.
    unfold refilled. lra. }
  rewrite H1. apply Qeq_bool_iff in Hr. rewrite Hr. cbn. repeat split.
Qed.

Lemma acquire_token_zero_rate_raises_witness :
  exists g, out (__init__ 0 1 1 clock0) = Return g /\
    out (_acquire_token 1 (g, clock0)) =
      Raise (Exn ZeroDivisionError "float division by zero").
Proof.
  eexists. split; [reflexivity |].
  apply acquire_token_zero_rate_raises; [reflexivity | reflexivity].
Defined.







(** ** AsyncClient *)

Lemma endswith_slash_app (s : string) :
  AsyncClient.endswith_slash (s ++ "/") = true.
Proof.
  induction s as [| a s IH]; [reflexivity |].
  change (String a s ++ "/") with (String a (s ++ "/")).
  destruct (s ++ "/") eqn:E; [now destruct s | exact IH].
Qed.

Lemma drop_last_app (s : string) : AsyncClient.drop_last (s ++ "/") = s.
Proof.
  induction s as [| a s IH]; [reflexivity |].
  change (String a s ++ "/") with (String a (s ++ "/")).
  destruct (s ++ "/") eqn:E; [now destruct s |].
  change (AsyncClient.drop_last (String a (String a0 s0)))
    with (String a (AsyncClient.drop_last (String a0 s0))).
  now rewrite IH.
Qed.

(** X7.  The constructor strips one trailing slash from the base URL, and
    no more than one; a base URL without one is kept. *)
Theorem init_strips_one_slash (s : string)
    (rate_limit_context : option RateLimitContext.t) :
  AsyncClient.base_url (AsyncClient.__init__ (s ++ "/") rate_limit_context) = s /\
  (AsyncClient.endswith_slash s = false ->
   AsyncClient.base_url (AsyncClient.__init__ s rate_limit_context) = s).
Proof.
  split.
  - unfold AsyncClient.__init__. cbn [AsyncClient.base_url].
    now rewrite endswith_slash_app, drop_last_app.
  - intros H. unfold AsyncClient.__init__. cbn [AsyncClient.base_url].
    now rewrite H.
Qed.

Section ClientExtras.
Context {httpx : Httpx} {limiter : Limiter}.

Lemma handle_cases (response : Response) (s : AsyncClient.St) :
  final (AsyncClient._handle response s) = s /\
  Forall is_log_event (trace (AsyncClient._handle response s)).
Proof.
  unfold AsyncClient._handle.
  destruct (raise_for_status response) as [e |]; [| now split].
  destruct (isinstance e HTTPStatusError); [split; [done | by repeat constructor] |].
  destruct (isinstance e RequestError); [split; [done | by repeat constructor] |].
  destruct (isinstance e Exception); [split; [done | by repeat constructor] |].
  now split.
Qed.

Lemma send_and_handle (v : verb) (url : string) (s : AsyncClient.St) :
  let r := (response <- AsyncClient.session v url;;
            AsyncClient._handle response) s in
  final r = s /\
  exists rest, trace r = EvSession v url :: rest /\ Forall is_log_event rest.
Proof.
  cbv zeta. rewrite bind_unfold. unfold AsyncClient.session.
  rewrite bind_unfold. cbn [emit].
  destruct (session_send v url) as [resp | e |]; cbn [ret raise block app].
  - destruct (handle_cases resp s) as [Hf Ht].
    destruct (AsyncClient._handle resp s) as [o s' tr]. cbn in Hf, Ht. subst s'.
    destruct o; cbn; split; eauto.
  - split; eauto.
  - split; eauto.
Qed.

(** X8.  [_post], [_put], [_delete], [_post_signed] and [_delete_signed]
    go round the rate limiter: each makes one call of the session, logs at
    most what [_handle] logs, and leaves the client, its limiter and the
    clock as they were; no limiter need be attached. *)
Theorem other_verbs_bypass_rate_gate (endpoint : string) (s : AsyncClient.St) :
  let url := AsyncClient.base_url (fst s) ++ endpoint in
  let untouched (v : verb) (target : string)
        (r : run AsyncClient.St event Response) :=
    final r = s /\
    exists rest, trace r = EvSession v target :: rest /\
                 Forall is_log_event rest in
  untouched POST url (AsyncClient._post endpoint s) /\
  untouched PUT url (AsyncClient._put endpoint s) /\
  untouched DELETE url (AsyncClient._delete endpoint s) /\
  untouched POST endpoint (AsyncClient._post_signed endpoint s) /\
  untouched DELETE endpoint (AsyncClient._delete_signed endpoint s).
Proof.
  cbv zeta. destruct s as [cl c]. cbn [fst].
  unfold AsyncClient._post, AsyncClient._put, AsyncClient._delete,
    AsyncClient._post_signed, AsyncClient._delete_signed.
  rewrite !(bind_return _ _ _ (cl, c) cl []) by reflexivity.
  cbn [out final trace app].
  pose proof (send_and_handle POST (AsyncClient.base_url cl ++ endpoint) (cl, c)) as H1.
  pose proof (send_and_handle PUT (AsyncClient.base_url cl ++ endpoint) (cl, c)) as H2.
  pose proof (send_and_handle DELETE (AsyncClient.base_url cl ++ endpoint) (cl, c)) as H3.
  pose proof (send_and_handle POST endpoint (cl, c)) as H4.
  pose proof (send_and_handle DELETE endpoint (cl, c)) as H5.
  cbv zeta in H1, H2, H3, H4, H5.
  destruct ((response <- AsyncClient.session POST (AsyncClient.base_url cl ++ endpoint);;
             AsyncClient._handle response) (cl, c)).
  destruct ((response <- AsyncClient.session PUT (AsyncClient.base_url cl ++ endpoint);;
             AsyncClient._handle response) (cl, c)).
  destruct ((response <- AsyncClient.session DELETE (AsyncClient.base_url cl ++ endpoint);;
             AsyncClient._handle response) (cl, c)).
  repeat split; first [apply H1 | apply H2 | apply H3 | apply H4 | apply H5].
Qed.

Lemma on_rate_limit_context_none {A} (method : string)
    (m : RateLimitContext.Gate A) (cl : AsyncClient.t) (c : Clock) :
  AsyncClient._rate_limit_context cl = None ->
  AsyncClient.on_rate_limit_context method m (cl, c) =
  Run (Raise (Exn AttributeError
                ("'NoneType' object has no attribute '" ++ method ++ "'")))
      (cl, c) [].
Proof.
  intros H. unfold AsyncClient.on_rate_limit_context. cbn [fst snd]. now rewrite H.
Qed.

(** X9.  On a client built without a rate limiter, [_get] makes its network
    call and then fails: looking up [adjust_rate_limit] on [None] raises
    [AttributeError], and the response is dropped unhandled. *)
Theorem get_without_rate_limiter (endpoint : string) (params : option string)
    (s : AsyncClient.St) (resp : Response) :
  AsyncClient._rate_limit_context (fst s) = None ->
  session_send GET (get_url (fst s) endpoint params) = Return resp ->
  let r := AsyncClient._get endpoint params s in
  out r = Raise (Exn AttributeError
                   "'NoneType' object has no attribute 'adjust_rate_limit'") /\
  trace r = [EvSession GET (get_url (fst s) endpoint params)] /\
  final r = s.
Proof.
  destruct s as [cl c]. cbv zeta. cbn [fst]. intros Hctx Hnet.
  unfold AsyncClient._get.
  rewrite (bind_return _ _ _ (cl, c) cl []) by reflexivity.
  cbn [out final trace app]. rewrite get_url_eq.
  assert (Hs : AsyncClient.session GET (get_url cl endpoint params) (cl, c) =
               Run (Return resp) (cl, c) [EvSession GET (get_url cl endpoint params)]).
  { unfold AsyncClient.session. rewrite bind_unfold. cbn [emit]. now rewrite Hnet. }
  rewrite (bind_return _ _ _ _ _ _ Hs). cbn [out final trace].
  rewrite bind_unfold, (on_rate_limit_context_none _ _ cl c Hctx).
  cbn. repeat split.
Qed.

(** X10.  A failure of the network call itself is not absorbed: when the
    session raises, [_get] (and [_post]) raise the same exception at once,
    having logged nothing and touched neither limiter nor clock;
    [_handle], and its clause for [RequestError], is never reached. *)
Theorem session_error_propagates (endpoint : string) (params : option string)
    (s : AsyncClient.St) (e : exn) :
  (session_send GET (get_url (fst s) endpoint params) = Raise e ->
   AsyncClient._get endpoint params s =
   Run (Raise e) s [EvSession GET (get_url (fst s) endpoint params)]) /\
  (session_send POST (AsyncClient.base_url (fst s) ++ endpoint) = Raise e ->
   AsyncClient._post endpoint s =
   Run (Raise e) s [EvSession POST (AsyncClient.base_url (fst s) ++ endpoint)]).
Proof.
  destruct s as [cl c]. cbn [fst]. split; intros Hnet.
  - unfold AsyncClient._get.
    rewrite (bind_return _ _ _ (cl, c) cl []) by reflexivity.
    cbn [out final trace app]. rewrite get_url_eq.
    rewrite bind_unfold. unfold AsyncClient.session.
    rewrite bind_unfold. cbn [emit]. now rewrite Hnet.
  - unfold AsyncClient._post.
    rewrite (bind_return _ _ _ (cl, c) cl []) by reflexivity.
    cbn [out final trace app].
    rewrite bind_unfold. unfold AsyncClient.session.
    rewrite bind_unfold. cbn [emit]. now rewrite Hnet.
Qed.

(** X11.  [_handle] lets through what is no [Exception]: such an exception
    leaves it as it was raised, with no log line. *)
Theorem handle_lets_non_exception_through (response : Response)
    (s : AsyncClient.St) (e : exn) :
  raise_for_status response = Some e ->
  isinstance e Exception = false ->
  AsyncClient._handle response s = Run (Raise e) s [].
Proof.
  intros He Hno. unfold AsyncClient._handle. rewrite He.
  destruct (isinstance e HTTPStatusError) eqn:E1;
    [apply issubclass_Exception_of_HTTPStatusError in E1; congruence |].
  destruct (isinstance e RequestError) eqn:E2;
    [apply issubclass_Exception_of_RequestError in E2; congruence |].
  now rewrite Hno.
Qed.

End ClientExtras.

Lemma get_without_rate_limiter_witness :
  out (AsyncClient._get (httpx := httpx_echo 200) (limiter := base_limiter)
         "/book" None client_unlimited) =
  Raise (Exn AttributeError
           "'NoneType' object has no attribute 'adjust_rate_limit'").
Proof.
  apply (get_without_rate_limiter (httpx := httpx_echo 200)
           (limiter := base_limiter) "/book" None client_unlimited
           {| status_code := 200; text := "body";
              headers := [("x-ratelimit-remaining", "1")] |});
    reflexivity.
Defined.

Lemma handle_lets_non_exception_through_witness :
  let resp := {| status_code := 200; text := "body"; headers := [] |} in
  out (AsyncClient._handle (httpx := httpx_interrupted) resp client21) =
  Raise (Exn KeyboardInterrupt "").
Proof.
  cbv zeta.
  rewrite (handle_lets_non_exception_through (httpx := httpx_interrupted)
             _ client21 (Exn KeyboardInterrupt "")); reflexivity.
Defined.

(** ** HTTPRequestor and Requestor *)

Lemma missing_params_nil (rq : HTTPRequestor.t) :
  (forall p, p ∈ HTTPRequestor._required_params rq ->
             is_Some (HTTPRequestor.params rq !! p)) ->
  HTTPRequestor.missing_params rq = [].
Proof.
  unfold HTTPRequestor.missing_params.
  induction (HTTPRequestor._required_params rq) as [| p ps IH]; intros H;
    [reflexivity |].
  cbn [List.filter]. destruct (H p) as [v Hv]; [left |]. rewrite Hv.
  apply IH. intros q Hq. apply H. now right.
Qed.

Lemma missing_params_cons (rq : HTTPRequestor.t) :
  (exists p, p ∈ HTTPRequestor._required_params rq /\
             HTTPRequestor.params rq !! p = None) ->
  exists q qs, HTTPRequestor.missing_params rq = q :: qs.
Proof.
  intros (p & Hin & Hp).
  assert (Hm : In p (HTTPRequestor.missing_params rq)).
  { unfold HTTPRequestor.missing_params. apply filter_In.
    split; [now apply list_elem_of_In | now rewrite Hp]. }
  destruct (HTTPRequestor.missing_params rq) as [| q qs]; [destruct Hm | eauto].
Qed.

Lemma http_has_required_params_run (rq : HTTPRequestor.t) (h : heap) :
  HTTPRequestor.has_required_params (rq, h) =
  match HTTPRequestor.missing_params rq with
  | [] => Run (Return true) (rq, h) []
  | _ :: _ =>
      Run (Return false) (rq, h)
          [RqLog WARNING "Missing required params: {}"
             (HTTPRequestor.missing_params rq)]
  end.
Proof.
  unfold HTTPRequestor.has_required_params.
  rewrite (bind_return _ _ _ (rq, h) rq []) by reflexivity.
  destruct (HTTPRequestor.missing_params rq); reflexivity.
Qed.

Section RequestorExtras.
Context {endpoint : Endpoint}.

(** X12.  [HTTPRequestor.request()] with a required parameter missing does
    not raise: it logs one warning that lists the missing parameters and
    returns [None], without calling [_request_func].  With every required
    parameter present it calls [_request_func(self.params)] once and
    returns what that returns. *)
Theorem http_request_cases (rq : HTTPRequestor.t) (h : heap) :
  let r := HTTPRequestor.request (rq, h) in
  ((exists p, p ∈ HTTPRequestor._required_params rq /\
              HTTPRequestor.params rq !! p = None) ->
   out r = Return VNone /\
   final r = (rq, h) /\
   trace r = [RqLog WARNING "Missing required params: {}"
                (HTTPRequestor.missing_params rq)]) /\
  ((forall p, p ∈ HTTPRequestor._required_params rq ->
              is_Some (HTTPRequestor.params rq !! p)) ->
   out r = Return (fst (_request_func (HTTPRequestor.params rq) h)) /\
   final r = (rq, snd (_request_func (HTTPRequestor.params rq) h)) /\
   trace r = [RqRequestFunc (HTTPRequestor.params rq)]).
Proof.
  cbv zeta. unfold HTTPRequestor.request.
  rewrite bind_unfold, http_has_required_params_run.
  split; intros H.
  - destruct (missing_params_cons rq H) as (q & qs & Hm).
    rewrite Hm. cbn. repeat split.
  - rewrite (missing_params_nil rq H). cbn.
    destruct (_request_func (HTTPRequestor.params rq) h) as [v h']. cbn.
    repeat split.
Qed.

End RequestorExtras.

Example http_request_lists_missing_params :
  HTTPRequestor.request (endpoint := endpoint_seven) (http_book, []) =
  Run (Return VNone) (http_book, [])
      [RqLog WARNING "Missing required params: {}" ["symbol"; "limit"]].
Proof. reflexivity. Qed.

(** X13.  The namespace does not depend on where the slash is written: a
    base URL with or without its trailing slash, and an endpoint with or
    without its leading slash, give the same namespace,
    [base + "/" + endpoint]. *)
Theorem namespace_ignores_slashes (b e : string)
    (ctx : option RateLimitContext.t) (required : list string) (default : val) :
  AsyncClient.endswith_slash b = false ->
  Requestor.startswith_slash e = false ->
  let ns client_url endpoint_ :=
    Requestor.namespace
      (Requestor.__init__ (AsyncClient.__init__ client_url ctx) endpoint_
         required default) in
  ns b e = b ++ "/" ++ e /\
  ns (b ++ "/") e = b ++ "/" ++ e /\
  ns b ("/" ++ e) = b ++ "/" ++ e /\
  ns (b ++ "/") ("/" ++ e) = b ++ "/" ++ e.
Proof.
  intros Hb He. cbv zeta.
  unfold Requestor.namespace, Requestor.__init__, AsyncClient.__init__.
  cbn [Requestor._client Requestor._endpoint AsyncClient.base_url].
  rewrite Hb, He, endswith_slash_app, drop_last_app.
  change (Requestor.startswith_slash ("/" ++ e)) with true.
  repeat split.
Qed.

Lemma namespace_ignores_slashes_witness :
  Requestor.namespace
    (Requestor.__init__ (AsyncClient.__init__ "https://api.example/" None)
       "book" [] VNone) =
  Requestor.namespace
    (Requestor.__init__ (AsyncClient.__init__ "https://api.example" None)
       "/book" [] VNone).
Proof.
  destruct (namespace_ignores_slashes "https://api.example" "book" None [] VNone)
    as (_ & H2 & H3 & _); [reflexivity | reflexivity |].
  cbv zeta in H2, H3. exact (eq_trans H2 (eq_sym H3)).
Defined.

Lemma missing_logs_nil (rq : Requestor.t) :
  forallb (Requestor.has_param rq) (Requestor.__required_params rq) = true ->
  missing_logs rq = [].
Proof.
  unfold missing_logs.
  induction (Requestor.__required_params rq) as [| p ps IH]; intros H;
    [reflexivity |].
  cbn [forallb] in H. apply andb_true_iff in H as [Hp Hps].
  rewrite filter_cons, Hp. cbn. now apply IH.
Qed.

Lemma await_tasks_for_each (rq : Requestor.t) :
  await_tasks rq = Requestor.for_each Requestor.await (Requestor.__async_tasks rq).
Proof. unfold await_tasks. now destruct (Requestor.__async_tasks rq). Qed.

Lemma await_fresh (rq : Requestor.t) (w : World) (task : nat) (co : coroutine) :
  coroutines w !! task = Some co -> co_awaited co = false ->
  Requestor.await task (rq, w) =
  Run (Return tt)
      (rq, {| objects := objects w;
              db := delete (co_namespace co, co_params co) (db w);
              coroutines :=
                <[task := {| co_namespace := co_namespace co;
                             co_params := co_params co;
                             co_awaited := true |}]> (coroutines w) |})
      [RqAwait task; RqDelete (co_namespace co) (co_params co)].
Proof.
  intros Hco Hfresh. unfold Requestor.await. cbn. now rewrite Hco, Hfresh.
Qed.

Lemma await_used (rq : Requestor.t) (w : World) (task : nat) (co : coroutine) :
  coroutines w !! task = Some co -> co_awaited co = true ->
  Requestor.await task (rq, w) = Run (Raise reuse_error) (rq, w) [RqAwait task].
Proof.
  intros Hco Hused. unfold Requestor.await. cbn. now rewrite Hco, Hused.
Qed.

(** Awaiting a queue of fresh tasks: every one runs, in the order of the
    queue. *)
Lemma for_each_await_fresh (rq : Requestor.t) (tasks : list nat) :
  forall w : World,
    fresh_tasks w tasks ->
    exists w',
      Requestor.for_each Requestor.await tasks (rq, w) =
      Run (Return tt) (rq, w') (awaits w tasks).
Proof.
  induction tasks as [| task tasks IH]; intros w [Hnd Hfresh].
  - exists w. reflexivity.
  - apply NoDup_cons in Hnd as [Hnotin Hnd].
    destruct (Hfresh task) as (co & Hco & Hf); [left |].
    cbn [Requestor.for_each]. rewrite bind_unfold, (await_fresh rq w task co Hco Hf).
    set (w1 := {| objects := objects w;
                  db := delete (co_namespace co, co_params co) (db w);
                  coroutines := <[task := _]> (coroutines w) |}).
    assert (Hsame : forall t, t ∈ tasks -> coroutines w1 !! t = coroutines w !! t).
    { intros t Ht. cbn. apply list_lookup_insert_ne. intros ->. contradiction. }
    destruct (IH w1) as (w' & Hrun).
    { split; [done |]. intros t Ht. rewrite (Hsame t Ht). apply Hfresh. now right. }
    rewrite Hrun. exists w'. f_equal.
    cbn [awaits flat_map]. rewrite Hco. cbn [app]. do 2 f_equal.
    unfold awaits. clear -Hsame. induction tasks as [| t ts IHt]; [done |].
    cbn [flat_map]. rewrite (Hsame t) by left. f_equal. apply IHt.
    intros t' Ht'. apply Hsame. now right.
Qed.

Section RequestorMore.
Context {endpoint : Endpoint}.

Lemma fetch_encoded_trace (ns : string) (ps : gmap string string) (sv : bool)
    (s : Requestor.St) :
  exists rest, trace (Requestor.fetch_encoded ns ps sv s) = RqFetch ns ps sv :: rest.
Proof.
  destruct s as [rq w]. unfold Requestor.fetch_encoded. cbn.
  destruct (db w !! (ns, ps)) as [v |]; cbn; [eauto |].
  destruct (_request_func ps (objects w)) as [v h]. cbn. eauto.
Qed.

Lemma answer_trace (rq : Requestor.t) (resp : val) (w : World) (tr : list rq_event) :
  trace (answer rq resp w tr) = tr /\
  coroutines (snd (final (answer rq resp w tr))) = coroutines w.
Proof.
  unfold answer. destruct (truthy _ _); [done |].
  by destruct (deepcopy _ _) as [[y h] |].
Qed.

(** X14.  [request()] awaits the queued pre-tasks before it asks the store
    for anything: with the required parameters present and a queue of
    fresh tasks, its trace is the awaits of the tasks, in the order they
    were queued and each followed by the deletion it runs, and only then
    the call of [fetch_encoded]. *)
Theorem request_awaits_tasks_before_fetch (rq : Requestor.t) (w : World) :
  (forall p, p ∈ Requestor.__required_params rq ->
             is_Some (Requestor.params rq !! p)) ->
  fresh_tasks w (Requestor.__async_tasks rq) ->
  exists rest,
    trace (Requestor.request (rq, w)) =
    (awaits w (Requestor.__async_tasks rq) ++
     RqFetch (Requestor.namespace rq) (Requestor.params rq) (Requestor._save rq)
       :: rest)%list.
Proof.
  intros Hall Hfresh. apply forallb_has_param_true in Hall.
  rewrite request_unfold, Hall, (missing_logs_nil rq Hall), await_tasks_for_each.
  destruct (for_each_await_fresh rq _ w Hfresh) as (w' & Hrun).
  rewrite Hrun. cbn [snd app].
  destruct (fetch_encoded_cases (Requestor.namespace rq) (Requestor.params rq)
              (Requestor._save rq) (rq, w')) as ([v Hv] & _ & _).
  destruct (fetch_encoded_trace (Requestor.namespace rq) (Requestor.params rq)
              (Requestor._save rq) (rq, w')) as [rest Hrest].
  destruct (Requestor.fetch_encoded _ _ _ _) as [o2 s2 tr2].
  cbn in Hv, Hrest. subst o2 tr2.
  exists rest. apply answer_trace.
Qed.

End RequestorMore.

Lemma request_awaits_tasks_before_fetch_witness :
  let s1 := final (Requestor.delete_from_db (book VNone, world0)) in
  exists rest,
    trace (Requestor.request (endpoint := endpoint_seven) s1) =
    ([RqAwait 0;
      RqDelete "https://api.example/book" (<["symbol" := "BTC"]> ∅);
      RqFetch "https://api.example/book" (<["symbol" := "BTC"]> ∅) true]
     ++ rest)%list.
Proof.
  cbv zeta.
  destruct (request_awaits_tasks_before_fetch (endpoint := endpoint_seven)
              (fst (final (Requestor.delete_from_db (book VNone, world0))))
              (snd (final (Requestor.delete_from_db (book VNone, world0)))))
    as [rest Hrest].
  - intros p Hp. apply list_elem_of_singleton in Hp as ->. by eexists.
  - split; [apply NoDup_singleton |].
    intros task Ht. apply list_elem_of_singleton in Ht as ->.
    eexists. split; reflexivity.
  - exists rest. exact Hrest.
Defined.


Section RequestorLater.
Context {endpoint : Endpoint}.

(** Awaiting marks, and nothing unmarks: a coroutine that was awaited
    stays awaited. *)
Lemma await_keeps_awaited (task : nat) (s : Requestor.St) (i : nat) (co : coroutine) :
  coroutines (snd s) !! i = Some co -> co_awaited co = true ->
  exists co', coroutines (snd (final (Requestor.await task s))) !! i = Some co' /\
              co_awaited co' = true.
Proof.
  destruct s as [rq w]. cbn [snd]. intros Hi Hco.
  unfold Requestor.await. cbn.
  destruct (coroutines w !! task) as [ct |] eqn:Et; cbn; [| eauto].
  destruct (co_awaited ct) eqn:Ea; cbn; [eauto |].
  destruct (decide (task = i)) as [-> | Hne].
  - rewrite list_lookup_insert_eq by (by eapply lookup_lt_Some). eauto.
  - rewrite list_lookup_insert_ne by done. eauto.
Qed.

Lemma await_marks (task : nat) (s : Requestor.St) :
  out (Requestor.await task s) = Return tt ->
  exists co', coroutines (snd (final (Requestor.await task s))) !! task = Some co' /\
              co_awaited co' = true.
Proof.
  destruct s as [rq w]. unfold Requestor.await. cbn.
  destruct (coroutines w !! task) as [ct |] eqn:Et; cbn; [| discriminate].
  destruct (co_awaited ct) eqn:Ea; cbn; [discriminate |]. intros _.
  rewrite list_lookup_insert_eq by (by eapply lookup_lt_Some). eauto.
Qed.

Lemma for_each_await_keeps_awaited (tasks : list nat) :
  forall (s : Requestor.St) (i : nat) (co : coroutine),
    coroutines (snd s) !! i = Some co -> co_awaited co = true ->
    exists co',
      coroutines (snd (final (Requestor.for_each Requestor.await tasks s))) !! i
        = Some co' /\ co_awaited co' = true.
Proof.
  induction tasks as [| task tasks IH]; intros s i co Hi Hco; [cbn; eauto |].
  cbn [Requestor.for_each]. rewrite bind_unfold.
  destruct (await_keeps_awaited task s i co Hi Hco) as (co1 & Hi1 & Hco1).
  destruct (Requestor.await task s) as [[[] | e |] s1 tr1]; cbn in Hi1; [| eauto ..].
  destruct (IH s1 i co1 Hi1 Hco1) as (co2 & Hi2 & Hco2).
  destruct (Requestor.for_each Requestor.await tasks s1) as [o2 s2 tr2].
  cbn in Hi2 |- *. eauto.
Qed.

Lemma for_each_await_marks_head (task : nat) (tasks : list nat) (s : Requestor.St) :
  out (Requestor.for_each Requestor.await (task :: tasks) s) = Return tt ->
  exists co',
    coroutines (snd (final (Requestor.for_each Requestor.await (task :: tasks) s)))
      !! task = Some co' /\ co_awaited co' = true.
Proof.
  cbn [Requestor.for_each]. rewrite bind_unfold.
  pose proof (await_marks task s) as Hm.
  destruct (Requestor.await task s) as [[[] | e |] s1 tr1]; cbn in Hm;
    [| discriminate | discriminate].
  destruct (Hm eq_refl) as (co1 & Hi1 & Hco1). intros _.
  destruct (for_each_await_keeps_awaited tasks s1 task co1 Hi1 Hco1)
    as (co2 & Hi2 & Hco2).
  destruct (Requestor.for_each Requestor.await tasks s1) as [o2 s2 tr2].
  cbn in Hi2 |- *. eauto.
Qed.

(** X16.  A requestor with a queued pre-task serves one [request()]: once a
    [request()] has returned, any later [request()] on the same instance
    awaits the first task of the queue again, which raises [RuntimeError],
    and neither the store nor the transport is reached. *)
Theorem request_with_used_queue_raises (rq : Requestor.t) (w : World)
    (task : nat) (tasks : list nat) (v : val) :
  Requestor.__async_tasks rq = task :: tasks ->
  out (Requestor.request (rq, w)) = Return v ->
  let s1 := final (Requestor.request (rq, w)) in
  Requestor.request s1 = Run (Raise reuse_error) s1 [RqAwait task].
Proof.
  intros Htasks Hout s1.
  assert (Hs1 : fst s1 = rq /\
                exists co, coroutines (snd s1) !! task = Some co /\
                           co_awaited co = true /\
                forallb (Requestor.has_param rq) (Requestor.__required_params rq) = true).
  { subst s1. revert Hout. rewrite request_unfold.
    destruct (forallb _ _) eqn:Hall; [| discriminate].
    rewrite await_tasks_for_each, Htasks.
    pose proof (for_each_await_marks_head task tasks (rq, w)) as Hm.
    destruct (Requestor.for_each Requestor.await (task :: tasks) (rq, w))
      as [[[] | e |] s1' tr1]; [| discriminate | discriminate].
    destruct (Hm eq_refl) as (co & Hco & Haw). cbn [final snd] in Hco.
    destruct (fetch_encoded_cases (Requestor.namespace rq) (Requestor.params rq)
                (Requestor._save rq) (rq, snd s1')) as ([resp Hv] & _ & Hcor).
    destruct (Requestor.fetch_encoded _ _ _ _) as [o2 s2 tr2].
    cbn in Hv, Hcor. subst o2. intros _.
    destruct (answer_db rq resp (snd s2) (missing_logs rq ++ tr1 ++ tr2)) as [_ Hrq].
    destruct (answer_trace rq resp (snd s2) (missing_logs rq ++ tr1 ++ tr2))
      as [_ Hc].
    split; [exact Hrq |]. exists co. rewrite Hc, Hcor. auto. }
  destruct s1 as [rq1 w1]. cbn [fst snd] in Hs1.
  destruct Hs1 as (-> & co & Hco & Haw & Hall).
  rewrite request_unfold, Hall, (missing_logs_nil rq Hall), await_tasks_for_each,
    Htasks.
  cbn [Requestor.for_each]. rewrite bind_unfold, (await_used rq w1 task co Hco Haw).
  reflexivity.
Qed.

(** X17.  [request_only()] asks the store before it looks at the
    parameters.  On a hit it returns [None] whether or not the required
    parameters are set; on a miss with a required parameter missing it
    raises the error of [request()], having made one call to the store. *)
Theorem request_only_asks_store_first (rq : Requestor.t) (w : World) :
  let key := (Requestor.namespace rq, Requestor.params rq) in
  let asked := RqContains (Requestor.namespace rq) (Requestor.params rq) in
  (is_Some (db w !! key) ->
   Requestor.request_only (rq, w) = Run (Return VNone) (rq, w) [asked]) /\
  (db w !! key = None ->
   (exists p, p ∈ Requestor.__required_params rq /\
              Requestor.params rq !! p = None) ->
   Requestor.request_only (rq, w) =
   Run (Raise (Exn RuntimeError "Required params not set")) (rq, w)
       (asked :: missing_logs rq)).
Proof.
  cbv zeta. split.
  - intros [stored Hst]. now apply request_only_hit with (stored := stored).
  - intros Hnone Hmiss. apply forallb_has_param_false in Hmiss.
    unfold Requestor.request_only, Requestor.contains_encoded.
    rewrite (bind_return _ _ _ (rq, w) rq []) by reflexivity.
    cbn [out final trace app].
    assert (Hc : (emit (RqContains (Requestor.namespace rq) (Requestor.params rq));;;
                  w0 <- Requestor.world;;
                  ret match db w0 !! (Requestor.namespace rq, Requestor.params rq) with
                      | Some _ => true
                      | None => false
                      end) (rq, w) =
                 Run (Return false) (rq, w)
                   [RqContains (Requestor.namespace rq) (Requestor.params rq)]).
    { cbn. now rewrite Hnone. }
    rewrite (bind_return _ _ _ _ _ _ Hc). cbn [out final trace].
    rewrite bind_unfold, request_unfold, Hmiss. reflexivity.
Qed.

(** X18.  Neither [request()] nor [request_only()] changes the requestor:
    its parameters, flags, default and queue are after the call what they
    were before, however the call ends. *)
Theorem request_never_changes_requestor (rq : Requestor.t) (w : World) :
  fst (final (Requestor.request (rq, w))) = rq /\
  fst (final (Requestor.request_only (rq, w))) = rq.
Proof.
  split; [apply request_keeps_self |].
  unfold Requestor.request_only, Requestor.contains_encoded.
  rewrite (bind_return _ _ _ (rq, w) rq []) by reflexivity. cbn [final].
  rewrite bind_unfold. cbn -[Requestor.request].
  destruct (db w !! _); cbn -[Requestor.request bind]; [reflexivity |].
  rewrite bind_unfold.
  pose proof (request_keeps_self rq w) as Hk.
  destruct (Requestor.request (rq, w)) as [[v | e |] s1 tr1]; exact Hk.
Qed.

End RequestorLater.

Lemma request_with_used_queue_raises_witness :
  let s0 := final (Requestor.delete_from_db (book VNone, world0)) in
  let s1 := final (Requestor.request (endpoint := endpoint_seven) s0) in
  out (Requestor.request (endpoint := endpoint_seven) s1) = Raise reuse_error.
Proof.
  cbv zeta.
  rewrite (surjective_pairing (final (Requestor.delete_from_db (book VNone, world0)))).
  rewrite (request_with_used_queue_raises (endpoint := endpoint_seven)
             _ _ 0%nat [] (VInt 7)); reflexivity.
Defined.
